(** * VideoEditor: keyframe interpolation and playback clock

    A shallow embedding of the algorithmic core of
    [src/videogen/src/screens/VideoEditor.js]: the function
    [getCharacterProps] (lines 121-166), the playback effect with its
    [updateAnimation] callback (lines 95-118), the footer's time
    controls (lines 404-435) and the positions computed for the timeline
    (lines 318-390).

    Numbers.  The program computes in binary64.  Two embeddings are given.
    The first takes the numbers of the JSON document and the playback time
    as exact rationals ([Qc]); it is used for what rests on comparisons and
    on the branches taken (which keyframes are selected, what is returned
    unchanged, where the clock wraps, which callbacks are pending).  The
    second, [Operators], repeats [getCharacterProps] over an arbitrary
    number type with its operators and is instantiated with the primitive
    binary64 floats ([Binary64]); statements about the values that the
    interpolation computes are made there. *)

From stdpp Require Import base numbers list sorting gmap strings.
From Stdlib Require Import QArith Qcanon Qround Lqa.
From Corelib Require Import PrimFloat.

Local Open Scope Qc_scope.

(** ** Numbers *)

(** The rational [n/d]. *)
Definition num (n : Z) (d : positive) : Qc := Q2Qc (n # d).

(** An integer (for instance a [Date.now()] stamp) as a rational. *)
Definition of_int (n : Z) : Qc := Q2Qc (inject_Z n).

(** The value of an arithmetic expression: a rational, or one of the
    values [NaN], [Infinity], [-Infinity]. *)
Inductive number : Type :=
  | Finite (q : Qc)
  | NonFinite.

(** [a / b] on rationals, exact; a zero divisor gives a non-finite value.
    Rounding and overflow are those of [Binary64] below, not of this
    model. *)
Definition js_div (a b : Qc) : number :=
  if decide (b = 0) then NonFinite else Finite (a / b).

(** [b + (a - b) * f] on rationals, exact: a non-finite [f] makes the
    product, and then the sum, non-finite.  The binary64 value, with its
    rounding and overflow, is [Binary64.interpolate]. *)
Definition lerp (b a : Qc) (f : number) : number :=
  match f with
  | Finite q => Finite (b + (a - b) * q)
  | NonFinite => NonFinite
  end.

(** [Math.max] and [Math.min] on two numbers. *)
Definition Math_max (a b : Qc) : Qc := if bool_decide (a ≤ b) then b else a.
Definition Math_min (a b : Qc) : Qc := if bool_decide (a ≤ b) then a else b.

(** How an evaluation ends: with a value, or with a thrown error, kept by
    the name of its constructor. *)
Inductive completion (A : Type) : Type :=
  | Return (a : A)
  | Throw (name : string).
Arguments Return {A} a.
Arguments Throw {A} name.

(** ** Data model *)

(** One element of [jsonData.animation.character.animations]. *)
Record Keyframe : Type := mkKeyframe {
  time : Qc;
  x : Qc;
  y : Qc;
  scale : Qc;
  rotation : Qc
}.

(** The object literal built at lines 160-165. *)
Record Interpolated : Type := mkInterpolated {
  ix : number;
  iy : number;
  iscale : number;
  irotation : number
}.

(** What [getCharacterProps] returns: one of the keyframe objects of the
    array itself (lines 143 and 152) or a new object (line 160). *)
Inductive CharacterProps : Type :=
  | SameObject (k : Keyframe)
  | NewObject (p : Interpolated).

#[global] Instance number_eq_dec : EqDecision number.
Proof. solve_decision. Defined.
#[global] Instance Keyframe_eq_dec : EqDecision Keyframe.
Proof. solve_decision. Defined.
#[global] Instance Interpolated_eq_dec : EqDecision Interpolated.
Proof. solve_decision. Defined.
#[global] Instance CharacterProps_eq_dec : EqDecision CharacterProps.
Proof. solve_decision. Defined.
#[global] Instance completion_eq_dec {A : Type} `{EqDecision A} :
  EqDecision (completion A).
Proof. solve_decision. Defined.

(** The four properties of a keyframe, as the rendering layer reads them. *)
Definition keyframe_props (k : Keyframe) : Interpolated :=
  {| ix := Finite (x k); iy := Finite (y k);
     iscale := Finite (scale k); irotation := Finite (rotation k) |}.

(** The fields [x], [y], [scale], [rotation] of the returned object. *)
Definition properties (r : CharacterProps) : Interpolated :=
  match r with
  | SameObject k => keyframe_props k
  | NewObject p => p
  end.

(** ** The interpolator: [getCharacterProps] *)

(** [animations[i]] for an integer [i]: [None] is [undefined], which is
    what an index below zero or past the end reads. *)
Definition index (animations : list Keyframe) (i : Z) : option Keyframe :=
  if bool_decide (0 ≤ i)%Z then animations !! Z.to_nat i else None.

(** The loop of lines 128-135, from position [i] on: [rest] holds
    [animations[i]], [animations[i+1]], ... and the two accumulators are
    the variables [beforeIndex] and [afterIndex]. *)
Fixpoint scan (currentTime : Qc) (rest : list Keyframe) (i : Z)
    (beforeIndex afterIndex : Z) : Z * Z :=
  match rest with
  | [] => (beforeIndex, afterIndex)
  | k :: rest' =>
      let beforeIndex' :=
        if bool_decide (time k ≤ currentTime) then i else beforeIndex in
      let afterIndex' :=
        if bool_decide (currentTime ≤ time k) && bool_decide (afterIndex = (-1)%Z)
        then i else afterIndex in
      scan currentTime rest' (i + 1)%Z beforeIndex' afterIndex'
  end.

(** Lines 124-139: the loop, then the two edge cases. *)
Definition selectIndices (animations : list Keyframe) (currentTime : Qc) : Z * Z :=
  let '(beforeIndex, afterIndex) := scan currentTime animations 0 (-1) (-1) in
  let beforeIndex := if bool_decide (beforeIndex = (-1)%Z) then 0%Z else beforeIndex in
  let afterIndex :=
    if bool_decide (afterIndex = (-1)%Z)
    then (Z.of_nat (length animations) - 1)%Z else afterIndex in
  (beforeIndex, afterIndex).

(** Line 157. *)
Definition factor (before after : Keyframe) (currentTime : Qc) : number :=
  let timeDiff := time after - time before in
  if decide (timeDiff = 0) then Finite 0
  else js_div (currentTime - time before) timeDiff.

(** Lines 155-165. *)
Definition interpolate (before after : Keyframe) (currentTime : Qc) : Interpolated :=
  let f := factor before after currentTime in
  {| ix := lerp (x before) (x after) f;
     iy := lerp (y before) (y after) f;
     iscale := lerp (scale before) (scale after) f;
     irotation := lerp (rotation before) (rotation after) f |}.

(** Lines 121-166.  Reading [.time] of [undefined] throws a [TypeError]. *)
Definition getCharacterProps (animations : list Keyframe) (currentTime : Qc)
    : completion CharacterProps :=
  let '(beforeIndex, afterIndex) := selectIndices animations currentTime in
  match index animations beforeIndex with
  | None => Throw "TypeError"
  | Some before =>
      if bool_decide (time before = currentTime) then Return (SameObject before)
      else if bool_decide (beforeIndex = afterIndex) then Return (SameObject before)
      else
        match index animations afterIndex with
        | None => Throw "TypeError"
        | Some after => Return (NewObject (interpolate before after currentTime))
        end
  end.

(** The keyframes of the initial document (lines 26-31). *)
Definition k0 : Keyframe := mkKeyframe (num 0 1) (num 10 1) (num 50 1) (num 1 1) (num 0 1).
Definition k30 : Keyframe := mkKeyframe (num 30 1) (num 70 1) (num 50 1) (num 12 10) (num 0 1).
Definition k60 : Keyframe := mkKeyframe (num 60 1) (num 40 1) (num 70 1) (num 1 1) (num 45 1).
Definition k90 : Keyframe := mkKeyframe (num 90 1) (num 10 1) (num 50 1) (num 1 1) (num 0 1).
Definition initial_animations : list Keyframe := [k0; k30; k60; k90].

(** ** The playback clock and the time controls *)

(** The component's state ([currentTime], [isPlaying], the two parts of
    [jsonData] read here, the refs [lastUpdateTimeRef] and
    [animationFrameRef]) together with the browser's list of animation
    frame callbacks.  A handle of [requestAnimationFrame] is an integer
    greater than zero; every callback requested here is [updateAnimation],
    so a pending entry keeps only what the closure captured: the
    [jsonData.project.duration] of the render that created it. *)
Record Editor : Type := mkEditor {
  currentTime : Qc;
  isPlaying : bool;
  duration : Qc;
  animations : list Keyframe;
  lastUpdateTime : Z;
  animationFrame : option positive;
  frames : gmap positive Qc;
  nextHandle : positive
}.

(** [setCurrentTime(t)]. *)
Definition setCurrentTime (t : Qc) (s : Editor) : Editor :=
  mkEditor t (isPlaying s) (duration s) (animations s) (lastUpdateTime s)
    (animationFrame s) (frames s) (nextHandle s).

(** [animationFrameRef.current = requestAnimationFrame(updateAnimation)],
    the closure holding duration [d]. *)
Definition requestAnimationFrame (d : Qc) (s : Editor) : Editor :=
  mkEditor (currentTime s) (isPlaying s) (duration s) (animations s)
    (lastUpdateTime s) (Some (nextHandle s))
    (<[nextHandle s := d]> (frames s)) (Pos.succ (nextHandle s)).

(** The cleanup of lines 112-116: the truthiness test holds for every
    handle, and fails for the initial [null]. *)
Definition cleanup (s : Editor) : Editor :=
  match animationFrame s with
  | Some h =>
      mkEditor (currentTime s) (isPlaying s) (duration s) (animations s)
        (lastUpdateTime s) (animationFrame s) (delete h (frames s)) (nextHandle s)
  | None => s
  end.

(** Line 99: the seconds between the last stamp and [now], on rationals
    and exact; the sums of successive ticks are not claimed to add up. *)
Definition deltaTime (s : Editor) (now : Z) : Qc :=
  (of_int now - of_int (lastUpdateTime s)) / num 1000 1.

(** The updater of lines 102-105, [d] being the duration that the closure
    captured. *)
Definition advance (d delta prevTime : Qc) : Qc :=
  let newTime := prevTime + delta in
  if bool_decide (d ≤ newTime) then 0 else newTime.

(** Lines 97-108: one run of [updateAnimation] with [Date.now() = now]. *)
Definition updateAnimation (d : Qc) (now : Z) (s : Editor) : Editor :=
  requestAnimationFrame d
    (mkEditor (advance d (deltaTime s now) (currentTime s)) (isPlaying s)
       (duration s) (animations s) now (animationFrame s) (frames s)
       (nextHandle s)).

(** The effect of lines 95-118 after a render in which one of its
    dependencies changed: the cleanup returned by the previous run (there
    is one when that run saw [isPlaying] true), then the body. *)
Definition playbackEffect (wasPlaying : bool) (s : Editor) : Editor :=
  let s1 := if wasPlaying then cleanup s else s in
  if isPlaying s1 then requestAnimationFrame (duration s1) s1 else s1.

Inductive event : Type :=
  | ClickBack10
  | ClickPlayPause
  | ClickReset
  | ClickForward10
  | AnimationFrame (handle : positive) (now : Z)
  | DocumentChange (duration' : Qc) (animations' : list Keyframe).

(** One event, together with the render and the effects that follow it:
    after a click or a document change React renders and runs the cleanup
    and the effect whose dependencies changed before the next event is
    handled (the effects of a discrete event are flushed synchronously).
    The browser runs an animation frame callback only while its handle is
    pending, and removes it from the list before the call; a functional
    update of [currentTime] is applied at once.  The render itself is
    taken to complete; [render_ok] below says when it does. *)
Definition step (s : Editor) (e : event) : Editor :=
  match e with
  | ClickBack10 => setCurrentTime (Math_max 0 (currentTime s - num 10 1)) s
  | ClickReset => setCurrentTime 0 s
  | ClickForward10 =>
      setCurrentTime (Math_min (duration s) (currentTime s + num 10 1)) s
  | ClickPlayPause =>
      playbackEffect (isPlaying s)
        (mkEditor (currentTime s) (negb (isPlaying s)) (duration s) (animations s)
           (lastUpdateTime s) (animationFrame s) (frames s) (nextHandle s))
  | AnimationFrame h now =>
      match frames s !! h with
      | Some d =>
          updateAnimation d now
            (mkEditor (currentTime s) (isPlaying s) (duration s) (animations s)
               (lastUpdateTime s) (animationFrame s) (delete h (frames s))
               (nextHandle s))
      | None => s
      end
  | DocumentChange d' a' =>
      let s' := mkEditor (currentTime s) (isPlaying s) d' a' (lastUpdateTime s)
                  (animationFrame s) (frames s) (nextHandle s) in
      if decide (d' = duration s) then s' else playbackEffect (isPlaying s) s'
  end.

(** The component after mounting at [Date.now() = t0] (lines 8-42). *)
Definition mount (t0 : Z) : Editor :=
  mkEditor 0 false (num 120 1) initial_animations t0 None ∅ 1%positive.

Definition run (s : Editor) (es : list event) : Editor := foldl step s es.

(** [const characterProps = getCharacterProps()] of a render (line 184). *)
Definition characterProps (s : Editor) : completion CharacterProps :=
  getCharacterProps (animations s) (currentTime s).

(** ** What the specification says of the selection *)

(** The list is in ascending order of [time] (equal times allowed). *)
Definition time_le (k1 k2 : Keyframe) : Prop := time k1 ≤ time k2.

#[global] Instance time_le_dec : RelDecision time_le.
Proof. intros k1 k2. unfold time_le. apply _. Defined.

Definition sorted_by_time (l : list Keyframe) : Prop := StronglySorted time_le l.

(** [before] in sequence order: the last position whose time is at most
    [t]; the first keyframe when there is none. *)
Definition seq_before (l : list Keyframe) (t : Qc) (bi : Z) : Prop :=
  (∃ kb, index l bi = Some kb ∧ time kb ≤ t ∧
         ∀ j k, l !! j = Some k → time k ≤ t → (Z.of_nat j ≤ bi)%Z)
  ∨ (bi = 0%Z ∧ index l bi = head l ∧ is_Some (head l) ∧ ∀ k, k ∈ l → t < time k).

(** [after] in sequence order: the first position whose time is at least
    [t]; the last keyframe when there is none. *)
Definition seq_after (l : list Keyframe) (t : Qc) (ai : Z) : Prop :=
  (∃ ka, index l ai = Some ka ∧ t ≤ time ka ∧
         ∀ j k, l !! j = Some k → t ≤ time k → (ai ≤ Z.of_nat j)%Z)
  ∨ (ai = (Z.of_nat (length l) - 1)%Z ∧ index l ai = last l ∧ is_Some (last l) ∧
     ∀ k, k ∈ l → time k < t).

(** Step 1 of the specification's algorithm: the keyframe with the
    greatest time at most [t], the last one in sequence order among those
    with that time; the first keyframe when there is none. *)
Definition spec_before (l : list Keyframe) (t : Qc) (bi : Z) : Prop :=
  (∃ kb, index l bi = Some kb ∧ time kb ≤ t ∧
         (∀ k, k ∈ l → time k ≤ t → time k ≤ time kb) ∧
         (∀ j k, l !! j = Some k → time k = time kb → (Z.of_nat j ≤ bi)%Z))
  ∨ (bi = 0%Z ∧ index l bi = head l ∧ is_Some (head l) ∧ ∀ k, k ∈ l → t < time k).

(** Step 2: the keyframe with the smallest time at least [t], the first
    one in sequence order among those with that time; the last keyframe
    when there is none. *)
Definition spec_after (l : list Keyframe) (t : Qc) (ai : Z) : Prop :=
  (∃ ka, index l ai = Some ka ∧ t ≤ time ka ∧
         (∀ k, k ∈ l → t ≤ time k → time ka ≤ time k) ∧
         (∀ j k, l !! j = Some k → time k = time ka → (ai ≤ Z.of_nat j)%Z))
  ∨ (ai = (Z.of_nat (length l) - 1)%Z ∧ index l ai = last l ∧ is_Some (last l) ∧
     ∀ k, k ∈ l → time k < t).

(** The exact-hit rule of the specification (step 3 after step 1): the
    result carries, unchanged, the properties of the keyframe that step 1
    selects. *)
Definition exact_hit_spec (l : list Keyframe) (t : Qc) : Prop :=
  ∃ bi kb r, spec_before l t bi ∧ index l bi = Some kb ∧
             getCharacterProps l t = Return r ∧ properties r = keyframe_props kb.

(** A list out of order, for which the selection in sequence order and the
    selection by time differ. *)
Definition out_of_order : list Keyframe := [k60; k30; k0].

(** Animation frames delivered one after the other. *)
Definition tick_events (ticks : list (positive * Z)) : list event :=
  map (λ hn, AnimationFrame hn.1 hn.2) ticks.

(** What the effect and its cleanup maintain: while playing, the only
    pending callback is the one whose handle [animationFrameRef] holds, and
    its closure has the current duration; while paused, none is pending. *)
Definition frames_inv (s : Editor) : Prop :=
  if isPlaying s
  then ∃ h, animationFrame s = Some h ∧ frames s = {[h := duration s]}
  else frames s = ∅.

(** A playing clock at 118 s of 120 s: mounted at stamp 0, started, and
    given one frame at stamp 118000; handle 2 is pending. *)
Definition at_118 : Editor :=
  run (mount 0) [ClickPlayPause; AnimationFrame 1 118000].

(** ** The timeline (lines 318-390) *)

(** [(a / d) * 100], the percentage used for every horizontal position of
    the timeline (lines 341, 360-362 and 386), on rationals and exact; only
    bounds and order, which rounding keeps, are stated of it. *)
Definition percent (a d : Qc) : number :=
  match js_div a d with
  | Finite q => Finite (q * num 100 1)
  | NonFinite => NonFinite
  end.

(** [Math.ceil]. *)
Definition Math_ceil (q : Qc) : Z := Qceiling q.

(** [Array.from({ length: n }, (_, i) => f(i))] for an integer [n]: a
    length below zero counts as zero, and one above 2^32 - 1 is refused with
    a [RangeError]. *)
Definition Array_from {A : Type} (n : Z) (f : Z → A) : completion (list A) :=
  if bool_decide (2 ^ 32 - 1 < n)%Z then Throw "RangeError"
  else Return (f <$> seqZ 0 n).

(** The labels of the timeline markers (lines 323-326). *)
Definition timeline_markers (duration : Qc) : completion (list Z) :=
  Array_from (Math_ceil (duration / num 30 1) + 1) (λ i, i * 30)%Z.

(** The [left] of the keyframe dots (lines 338-341), in sequence order. *)
Definition keyframe_lefts (duration : Qc) (animations : list Keyframe) : list number :=
  (λ keyframe, percent (time keyframe) duration) <$> animations.

(** The [left] of the playhead (line 386). *)
Definition playhead_left (s : Editor) : number :=
  percent (currentTime s) (duration s).

(** ** Runs of the clock *)

(** [currentTime] is on the timeline. *)
Definition time_inv (s : Editor) : Prop :=
  0 ≤ currentTime s ∧ currentTime s ≤ duration s.

(** What the environment is assumed to do in the invariant below: the
    clock [Date.now()] does not run backwards, and an edited document does
    not end before the current time. *)
Definition admissible (s : Editor) (e : event) : Prop :=
  match e with
  | AnimationFrame _ now => (lastUpdateTime s ≤ now)%Z
  | DocumentChange d' _ => currentTime s ≤ d'
  | _ => True
  end.

Fixpoint admissible_run (s : Editor) (es : list event) : Prop :=
  match es with
  | [] => True
  | e :: es' => admissible s e ∧ admissible_run (step s e) es'
  end.

(** The render that follows an event completes: neither
    [getCharacterProps] (line 184) nor the [Array.from] of the timeline
    markers (lines 323-326) throws.  A render that throws makes React
    unmount the component, after which no further event reaches it. *)
Definition render_ok (s : Editor) : bool :=
  match characterProps s, timeline_markers (duration s) with
  | Return _, Return _ => true
  | _, _ => false
  end.

(** Every render along a run completes. *)
Fixpoint renders_along (s : Editor) (es : list event) : bool :=
  render_ok s &&
  match es with
  | [] => true
  | e :: es' => renders_along (step s e) es'
  end.

(** A computed number is a rational between [lo] and [hi]. *)
Definition within (lo hi : Qc) (n : number) : Prop :=
  match n with
  | Finite v => lo ≤ v ∧ v ≤ hi
  | NonFinite => False
  end.

(** ** The interpolator over the program's own operators

    The values that lines 155-165 compute depend on the arithmetic: in the
    program every [+], [-], [*], [/] is the binary64 operation, which
    rounds and can overflow.  [getCharacterProps] is therefore given a
    second time, word for word as above, over an arbitrary number type with
    its operators, and instantiated with the primitive binary64 floats.
    The rational model above is used for what depends on comparisons and on
    the branches taken; statements about computed values are made on the
    binary64 instance. *)

Module Operators.

Record Keyframe {num : Type} : Type := mkKeyframe {
  time : num;
  x : num;
  y : num;
  scale : num;
  rotation : num
}.
Arguments Keyframe : clear implicits.
Arguments mkKeyframe {num}.

(** The object literal of lines 160-165. *)
Record Interpolated {num : Type} : Type := mkInterpolated {
  ix : num;
  iy : num;
  iscale : num;
  irotation : num
}.
Arguments Interpolated : clear implicits.
Arguments mkInterpolated {num}.

Inductive CharacterProps {num : Type} : Type :=
  | SameObject (k : Keyframe num)
  | NewObject (p : Interpolated num).
Arguments CharacterProps : clear implicits.
Arguments SameObject {num}.
Arguments NewObject {num}.

Definition keyframe_props {num : Type} (k : Keyframe num) : Interpolated num :=
  {| ix := x k; iy := y k; iscale := scale k; irotation := rotation k |}.

Section operators.
Context {num : Type}.
(** [+], [-], [*], [/], [<=] (and [>=], its converse), [===] and the
    literal [0]. *)
Variables (add sub mul div : num → num → num).
Variables (le eq : num → num → bool).
Variable zero : num.

(** [a < b]. *)
Definition lt (a b : num) : bool := le a b && negb (le b a).

Definition index (animations : list (Keyframe num)) (i : Z) : option (Keyframe num) :=
  if bool_decide (0 ≤ i)%Z then animations !! Z.to_nat i else None.

(** Lines 128-135. *)
Fixpoint scan (currentTime : num) (rest : list (Keyframe num)) (i : Z)
    (beforeIndex afterIndex : Z) : Z * Z :=
  match rest with
  | [] => (beforeIndex, afterIndex)
  | k :: rest' =>
      let beforeIndex' := if le (time k) currentTime then i else beforeIndex in
      let afterIndex' :=
        if le currentTime (time k) && bool_decide (afterIndex = (-1)%Z)
        then i else afterIndex in
      scan currentTime rest' (i + 1)%Z beforeIndex' afterIndex'
  end.

(** Lines 124-139. *)
Definition selectIndices (animations : list (Keyframe num)) (currentTime : num)
    : Z * Z :=
  let '(beforeIndex, afterIndex) := scan currentTime animations 0 (-1) (-1) in
  let beforeIndex := if bool_decide (beforeIndex = (-1)%Z) then 0%Z else beforeIndex in
  let afterIndex :=
    if bool_decide (afterIndex = (-1)%Z)
    then (Z.of_nat (length animations) - 1)%Z else afterIndex in
  (beforeIndex, afterIndex).

(** Lines 156-157. *)
Definition factor (before after : Keyframe num) (currentTime : num) : num :=
  let timeDiff := sub (time after) (time before) in
  if eq timeDiff zero then zero
  else div (sub currentTime (time before)) timeDiff.

(** Lines 155-165. *)
Definition interpolate (before after : Keyframe num) (currentTime : num)
    : Interpolated num :=
  let f := factor before after currentTime in
  {| ix := add (x before) (mul (sub (x after) (x before)) f);
     iy := add (y before) (mul (sub (y after) (y before)) f);
     iscale := add (scale before) (mul (sub (scale after) (scale before)) f);
     irotation :=
       add (rotation before) (mul (sub (rotation after) (rotation before)) f) |}.

(** Lines 121-166. *)
Definition getCharacterProps (animations : list (Keyframe num)) (currentTime : num)
    : completion (CharacterProps num) :=
  let '(beforeIndex, afterIndex) := selectIndices animations currentTime in
  match index animations beforeIndex with
  | None => Throw "TypeError"
  | Some before =>
      if eq (time before) currentTime then Return (SameObject before)
      else if bool_decide (beforeIndex = afterIndex) then Return (SameObject before)
      else
        match index animations afterIndex with
        | None => Throw "TypeError"
        | Some after => Return (NewObject (interpolate before after currentTime))
        end
  end.

(** What the comparisons are relied on for, on a given list of numbers:
    [<=] is transitive and [===] holds exactly when [<=] holds both
    ways.  Both are true of all binary64 numbers ([NaN] included, every
    comparison with it being false); on given numbers they are checked
    by evaluation. *)
Definition order_laws (S : list num) : bool :=
  forallb (λ a,
    forallb (λ b,
      Bool.eqb (eq a b) (le a b && le b a) &&
      forallb (λ c, implb (le a b && le b c) (le a c)) S) S) S.

(** The list is in ascending order of [time]. *)
Definition sorted_by_time (l : list (Keyframe num)) : Prop :=
  StronglySorted (λ k1 k2, le (time k1) (time k2) = true) l.

Definition sortedb (l : list (Keyframe num)) : bool :=
  (fix go (l : list (Keyframe num)) : bool :=
     match l with
     | [] => true
     | k :: l' => forallb (λ k', le (time k) (time k')) l' && go l'
     end) l.

(** The formula as the specification writes it, evaluated from left to
    right: [b + (a - b) * (t - tb) / (ta - tb)]. *)
Definition claimed_field (b a t tb ta : num) : num :=
  add b (div (mul (sub a b) (sub t tb)) (sub ta tb)).

Definition claimed_linear (before after : Keyframe num) (t : num) : Interpolated num :=
  {| ix := claimed_field (x before) (x after) t (time before) (time after);
     iy := claimed_field (y before) (y after) t (time before) (time after);
     iscale :=
       claimed_field (scale before) (scale after) t (time before) (time after);
     irotation :=
       claimed_field (rotation before) (rotation after) t (time before)
         (time after) |}.
End operators.

End Operators.

(** The program's arithmetic: binary64 with the IEEE comparisons. *)
Module Binary64.
Local Open Scope float_scope.

Abbreviation Keyframe := (Operators.Keyframe float).
Abbreviation Interpolated := (Operators.Interpolated float).

Definition lt : float → float → bool := Operators.lt PrimFloat.leb.
Definition order_laws : list float → bool :=
  Operators.order_laws PrimFloat.leb PrimFloat.eqb.
Definition sorted_by_time : list Keyframe → Prop :=
  Operators.sorted_by_time PrimFloat.leb.
Definition sortedb : list Keyframe → bool := Operators.sortedb PrimFloat.leb.
Definition selectIndices : list Keyframe → float → Z * Z :=
  Operators.selectIndices PrimFloat.leb.
Definition factor : Keyframe → Keyframe → float → float :=
  Operators.factor PrimFloat.sub PrimFloat.div PrimFloat.eqb 0.
Definition interpolate : Keyframe → Keyframe → float → Interpolated :=
  Operators.interpolate PrimFloat.add PrimFloat.sub PrimFloat.mul PrimFloat.div
    PrimFloat.eqb 0.
Definition getCharacterProps
    : list Keyframe → float → completion (Operators.CharacterProps float) :=
  Operators.getCharacterProps PrimFloat.add PrimFloat.sub PrimFloat.mul PrimFloat.div
    PrimFloat.leb PrimFloat.eqb 0.
Definition claimed_linear : Keyframe → Keyframe → float → Interpolated :=
  Operators.claimed_linear PrimFloat.add PrimFloat.sub PrimFloat.mul PrimFloat.div.

(** The keyframes of the initial document (lines 26-31); [1.2] is the
    binary64 number nearest to 12/10. *)
Definition k0 : Keyframe := Operators.mkKeyframe 0 10 50 1 0.
Definition k30 : Keyframe := Operators.mkKeyframe 30 70 50 (12 / 10) 0.
Definition k60 : Keyframe := Operators.mkKeyframe 60 40 70 1 45.
Definition k90 : Keyframe := Operators.mkKeyframe 90 10 50 1 0.
Definition initial_animations : list Keyframe := [k0; k30; k60; k90].

(** Two keyframes 0.3 s apart, [x] going from 0 to 90. *)
Definition drift_before : Keyframe := Operators.mkKeyframe 0 0 50 1 0.
Definition drift_after : Keyframe := Operators.mkKeyframe (3 / 10) 90 50 1 0.


End Binary64.

(** ** Order on the rationals *)

Lemma Qc_nle_lt (a b : Qc) : ¬ a ≤ b → b < a.
Proof. apply Qcnot_le_lt. Qed.

Lemma Qc_lt_nle (a b : Qc) : a < b → ¬ b ≤ a.
Proof. apply Qclt_not_le. Qed.

Lemma Qc_lt_ne (a b : Qc) : a < b → a ≠ b.
Proof. intros H ->. by apply (Qclt_not_le _ _ H), Qcle_refl. Qed.

Lemma Qc_le_lt_false (a b : Qc) : a ≤ b → b < a → False.
Proof. intros H1 H2. by apply (Qclt_not_le _ _ H2). Qed.

Lemma Qc_sub_eq_0 (a b : Qc) : a - b = 0 ↔ a = b.
Proof.
  split; [|intros ->; ring].
  intros H. rewrite <-(Qcplus_0_l b), <-H. ring.
Qed.

(** ** The loop *)

Lemma index_of_nat (l : list Keyframe) (j : nat) : index l (Z.of_nat j) = l !! j.
Proof.
  unfold index. rewrite bool_decide_eq_true_2 by lia. by rewrite Nat2Z.id.
Qed.

Lemma index_head (l : list Keyframe) : index l 0 = head l.
Proof. rewrite head_lookup. apply (index_of_nat l 0). Qed.

Lemma index_Some (l : list Keyframe) (i : Z) (k : Keyframe) :
  index l i = Some k ↔ (0 ≤ i)%Z ∧ l !! Z.to_nat i = Some k.
Proof.
  unfold index. case_bool_decide as Hi.
  - split; [by intros ?|by intros [_ ?]].
  - split; [done|by intros [? _]].
Qed.

(** [beforeIndex] after the loop: unchanged when no time is at most [t],
    else the last position with such a time. *)
Lemma scan_before (t : Qc) (l : list Keyframe) (i bi ai : Z) :
  ((scan t l i bi ai).1 = bi ∧ ∀ j k, l !! j = Some k → t < time k)
  ∨ (∃ j k, (scan t l i bi ai).1 = (i + Z.of_nat j)%Z ∧ l !! j = Some k ∧
            time k ≤ t ∧
            ∀ j' k', l !! j' = Some k' → (j < j')%nat → t < time k').
Proof.
  revert i bi ai. induction l as [|a l IH]; intros i bi ai; simpl.
  - left. split; [done|]. intros j k Hj. by rewrite lookup_nil in Hj.
  - destruct (IH (i + 1)%Z
               (if bool_decide (time a ≤ t) then i else bi)
               (if bool_decide (t ≤ time a) && bool_decide (ai = (-1)%Z)
                then i else ai))
      as [[Hr Hnone]|(j & k & Hr & Hj & Hk & Hlast)].
    + case_bool_decide as Ha.
      * right. exists 0%nat, a. rewrite Hr. split_and!; [lia|done|done|].
        intros [|j'] k' Hj' Hlt; [lia|]. by eapply Hnone.
      * left. split; [done|]. intros [|j] k Hj.
        -- simplify_eq/=. by apply Qc_nle_lt.
        -- by eapply Hnone.
    + right. exists (S j), k. rewrite Hr. split_and!; [lia|done|done|].
      intros [|j'] k' Hj' Hlt; [lia|]. eapply Hlast; [done|lia].
Qed.

(** Once [afterIndex] is set, the loop keeps it. *)
Lemma scan_after_set (t : Qc) (l : list Keyframe) (i bi ai : Z) :
  ai ≠ (-1)%Z → (scan t l i bi ai).2 = ai.
Proof.
  revert i bi. induction l as [|a l IH]; intros i bi Hai; simpl; [done|].
  rewrite (bool_decide_eq_false_2 (ai = (-1)%Z)) by done.
  rewrite andb_false_r. by apply IH.
Qed.

(** [afterIndex] after the loop: still [-1] when no time is at least [t],
    else the first position with such a time. *)
Lemma scan_after (t : Qc) (l : list Keyframe) (i bi : Z) :
  (0 ≤ i)%Z →
  ((scan t l i bi (-1)).2 = (-1)%Z ∧ ∀ j k, l !! j = Some k → time k < t)
  ∨ (∃ j k, (scan t l i bi (-1)).2 = (i + Z.of_nat j)%Z ∧ l !! j = Some k ∧
            t ≤ time k ∧
            ∀ j' k', l !! j' = Some k' → (j' < j)%nat → time k' < t).
Proof.
  revert i bi. induction l as [|a l IH]; intros i bi Hi; simpl.
  - left. split; [done|]. intros j k Hj. by rewrite lookup_nil in Hj.
  - rewrite andb_true_r.
    destruct (decide (t ≤ time a)) as [Ha|Ha];
      [rewrite (bool_decide_eq_true_2 _ Ha)|rewrite (bool_decide_eq_false_2 _ Ha)].
    + right. exists 0%nat, a. rewrite scan_after_set by lia.
      split_and!; [lia|done|done|]. intros j' k' _ Hlt. lia.
    + destruct (IH (i + 1)%Z (if bool_decide (time a ≤ t) then i else bi))
        as [[Hr Hnone]|(j & k & Hr & Hj & Hk & Hfirst)]; [lia| |].
      * left. split; [done|]. intros [|j] k Hj.
        -- simplify_eq/=. by apply Qc_nle_lt.
        -- by eapply Hnone.
      * right. exists (S j), k. rewrite Hr. split_and!; [lia|done|done|].
        intros [|j'] k' Hj' Hlt.
        -- simplify_eq/=. by apply Qc_nle_lt.
        -- eapply Hfirst; [done|lia].
Qed.

(** ** The selection of [before] and [after] *)

Lemma selectIndices_eq (l : list Keyframe) (t : Qc) :
  selectIndices l t =
    (if bool_decide ((scan t l 0 (-1) (-1)).1 = (-1)%Z) then 0%Z
     else (scan t l 0 (-1) (-1)).1,
     if bool_decide ((scan t l 0 (-1) (-1)).2 = (-1)%Z)
     then (Z.of_nat (length l) - 1)%Z
     else (scan t l 0 (-1) (-1)).2).
Proof. unfold selectIndices. by destruct (scan t l 0 (-1) (-1)). Qed.

Lemma index_last (l : list Keyframe) :
  l ≠ [] → index l (Z.of_nat (length l) - 1) = last l.
Proof.
  intros Hl. rewrite last_lookup. destruct l as [|a l]; [done|].
  unfold index. rewrite bool_decide_eq_true_2 by (simpl; lia).
  f_equal. simpl. lia.
Qed.

Lemma select_before (l : list Keyframe) (t : Qc) :
  l ≠ [] → seq_before l t (selectIndices l t).1.
Proof.
  intros Hl. rewrite selectIndices_eq. cbn [fst].
  destruct (scan_before t l 0 (-1) (-1))
    as [[Hr Hnone]|(j & k & Hr & Hj & Hk & Hlast)]; rewrite Hr.
  - right. destruct l as [|a l]; [done|]. split_and!; [done|done|by eexists|].
    intros k [j Hj]%list_elem_of_lookup. by eapply Hnone.
  - rewrite bool_decide_eq_false_2 by lia. rewrite Z.add_0_l.
    left. exists k. rewrite index_of_nat. split_and!; [done|done|].
    intros j' k' Hj' Hk'. destruct (decide (j < j')%nat) as [Hlt|]; [|lia].
    destruct (Qc_le_lt_false _ _ Hk' (Hlast _ _ Hj' Hlt)).
Qed.

Lemma select_after (l : list Keyframe) (t : Qc) :
  l ≠ [] → seq_after l t (selectIndices l t).2.
Proof.
  intros Hl. rewrite selectIndices_eq. cbn [snd].
  destruct (scan_after t l 0 (-1)) as [[Hr Hnone]|(j & k & Hr & Hj & Hk & Hfirst)];
    [done| |]; rewrite Hr.
  - right. rewrite bool_decide_eq_true_2 by done.
    split_and!; [done|by apply index_last|by apply last_is_Some|].
    intros k [j Hj]%list_elem_of_lookup. by eapply Hnone.
  - rewrite bool_decide_eq_false_2 by lia. rewrite Z.add_0_l.
    left. exists k. rewrite index_of_nat. split_and!; [done|done|].
    intros j' k' Hj' Hk'. destruct (decide (j' < j)%nat) as [Hlt|]; [|lia].
    destruct (Qc_le_lt_false _ _ Hk' (Hfirst _ _ Hj' Hlt)).
Qed.

(** In a list in ascending order a later position has a later time. *)
Lemma sorted_lookup_le (l : list Keyframe) (i j : nat) (a b : Keyframe) :
  sorted_by_time l → l !! i = Some a → l !! j = Some b → (i ≤ j)%nat →
  time a ≤ time b.
Proof.
  intros Hs. revert i j. induction Hs as [|c l Hs IH Hall]; intros i j Hi Hj Hij.
  - by rewrite lookup_nil in Hi.
  - destruct i as [|i], j as [|j]; simplify_eq/=.
    + apply Qcle_refl.
    + rewrite Forall_forall in Hall. apply (Hall b).
      apply list_elem_of_lookup. by exists j.
    + lia.
    + eapply IH; [done|done|lia].
Qed.

Lemma sorted_spec_before (l : list Keyframe) (t : Qc) (bi : Z) :
  sorted_by_time l → seq_before l t bi → spec_before l t bi.
Proof.
  intros Hs [(kb & Hb & Hle & Hlast)|Hfall]; [left|by right].
  exists kb. split_and!; [done|done| |].
  - intros k [j Hj]%list_elem_of_lookup Hk.
    apply index_Some in Hb as [H0 Hb].
    eapply (sorted_lookup_le l j (Z.to_nat bi)); [done|done|done|].
    specialize (Hlast _ _ Hj Hk). lia.
  - intros j k Hj Hk. eapply Hlast; [done|]. by rewrite Hk.
Qed.

Lemma sorted_spec_after (l : list Keyframe) (t : Qc) (ai : Z) :
  sorted_by_time l → seq_after l t ai → spec_after l t ai.
Proof.
  intros Hs [(ka & Ha & Hle & Hfirst)|Hfall]; [left|by right].
  exists ka. split_and!; [done|done| |].
  - intros k [j Hj]%list_elem_of_lookup Hk.
    apply index_Some in Ha as [H0 Ha].
    eapply (sorted_lookup_le l (Z.to_nat ai) j); [done|done|done|].
    specialize (Hfirst _ _ Hj Hk). lia.
  - intros j k Hj Hk. eapply Hfirst; [done|]. by rewrite Hk.
Qed.

(** ** Closed facts about concrete rationals and lists *)

Ltac qc_true := by (apply (bool_decide_unpack _); vm_compute).
Ltac qc_false H := by (apply (bool_decide_pack _) in H; vm_compute in H).

Lemma initial_animations_sorted : sorted_by_time initial_animations.
Proof. repeat constructor; unfold time_le; qc_true. Qed.

(** C2, as stated for lists in any order, fails: in [k60; k30; k0] at time
    45 the loop leaves [beforeIndex] at the last position whose time is at
    most 45, which holds time 0, although time 30 is the greatest such
    time. *)
Lemma select_by_time_fails_out_of_order :
  ¬ (spec_before out_of_order (num 45 1) (selectIndices out_of_order (num 45 1)).1
     ∧ spec_after out_of_order (num 45 1) (selectIndices out_of_order (num 45 1)).2).
Proof.
  replace (selectIndices out_of_order (num 45 1)) with (2%Z, 0%Z)
    by (vm_compute; reflexivity).
  intros [[(kb & Hb & _ & Hmax & _)|(Hbi & _)] _]; [|done].
  vm_compute in Hb. simplify_eq.
  assert (time k30 ≤ time k0) as Hle.
  { apply Hmax; [|qc_true]. unfold out_of_order. set_solver. }
  qc_false Hle.
Qed.

(** C2 (amended).  For every non-empty keyframe list and every query time,
    [before] is the last keyframe in sequence order whose time is at most
    the query time (the first keyframe when there is none) and [after] is
    the first keyframe in sequence order whose time is at least the query
    time (the last keyframe when there is none); when the list is in
    ascending order of time these are the keyframe with the greatest time
    at most the query time, last among equal times, and the keyframe with
    the smallest time at least the query time, first among equal times. *)
Theorem select_in_sequence_order (l : list Keyframe) (t : Qc) :
  l ≠ [] →
  seq_before l t (selectIndices l t).1 ∧ seq_after l t (selectIndices l t).2 ∧
  (sorted_by_time l →
   spec_before l t (selectIndices l t).1 ∧ spec_after l t (selectIndices l t).2).
Proof.
  intros Hl. split_and!.
  - by apply select_before.
  - by apply select_after.
  - intros Hs. split.
    + by apply sorted_spec_before, select_before.
    + by apply sorted_spec_after, select_after.
Qed.

Lemma select_in_sequence_order_witness :
  selectIndices initial_animations (num 45 1) = (1%Z, 2%Z) ∧
  spec_before initial_animations (num 45 1) (selectIndices initial_animations (num 45 1)).1 ∧
  spec_after initial_animations (num 45 1) (selectIndices initial_animations (num 45 1)).2.
Proof.
  split; [vm_compute; reflexivity|].
  destruct (select_in_sequence_order initial_animations (num 45 1)) as (_ & _ & Hs);
    [done|].
  apply Hs, initial_animations_sorted.
Defined.

(** ** The result of [getCharacterProps] *)

Lemma getCharacterProps_eq (l : list Keyframe) (t : Qc) :
  getCharacterProps l t =
    match index l (selectIndices l t).1 with
    | None => Throw "TypeError"
    | Some before =>
        if bool_decide (time before = t) then Return (SameObject before)
        else if bool_decide ((selectIndices l t).1 = (selectIndices l t).2)
        then Return (SameObject before)
        else
          match index l (selectIndices l t).2 with
          | None => Throw "TypeError"
          | Some after => Return (NewObject (interpolate before after t))
          end
    end.
Proof. unfold getCharacterProps. by destruct (selectIndices l t). Qed.

(** Both selected indices are inside a non-empty array. *)
Lemma select_before_Some (l : list Keyframe) (t : Qc) :
  l ≠ [] → is_Some (index l (selectIndices l t).1).
Proof.
  intros Hl.
  destruct (select_before l t Hl) as [(kb & Hb & _)|(_ & Hb & Hh & _)].
  - by exists kb.
  - by rewrite Hb.
Qed.

Lemma select_after_Some (l : list Keyframe) (t : Qc) :
  l ≠ [] → is_Some (index l (selectIndices l t).2).
Proof.
  intros Hl.
  destruct (select_after l t Hl) as [(ka & Ha & _)|(_ & Ha & Hh & _)].
  - by exists ka.
  - by rewrite Ha.
Qed.

(** Below all times both indices are 0; above all times both are the last
    position: the two edge cases of lines 138-139 meet the loop's other
    index. *)
Lemma select_below_all (l : list Keyframe) (t : Qc) :
  l ≠ [] → (∀ k, k ∈ l → t < time k) → selectIndices l t = (0%Z, 0%Z).
Proof.
  intros Hl Hall. rewrite (surjective_pairing (selectIndices l t)).
  destruct l as [|kf l']; [done|].
  assert (t < time kf) as Hkf by (apply Hall; set_solver).
  f_equal.
  - destruct (select_before (kf :: l') t Hl) as [(kb & Hb & Hle & _)|(Hbi & _)]; [|done].
    apply index_Some in Hb as [_ Hb]. apply list_elem_of_lookup_2 in Hb.
    destruct (Qc_le_lt_false _ _ Hle (Hall _ Hb)).
  - destruct (select_after (kf :: l') t Hl)
      as [(ka & Ha & _ & Hfirst)|(_ & _ & [kl Hkl] & Hlt)].
    + apply index_Some in Ha as [H0 _].
      specialize (Hfirst 0%nat kf eq_refl (Qclt_le_weak _ _ Hkf)). lia.
    + apply last_Some_elem_of in Hkl.
      destruct (Qc_le_lt_false t (time kl)); [apply Qclt_le_weak|]; auto.
Qed.

Lemma select_above_all (l : list Keyframe) (t : Qc) :
  l ≠ [] → (∀ k, k ∈ l → time k < t) →
  selectIndices l t = ((Z.of_nat (length l) - 1)%Z, (Z.of_nat (length l) - 1)%Z).
Proof.
  intros Hl Hall. rewrite (surjective_pairing (selectIndices l t)).
  destruct (proj2 (last_is_Some l) Hl) as [kl Hkl].
  assert (kl ∈ l) as Hin by (by apply last_Some_elem_of).
  f_equal.
  - destruct (select_before l t Hl) as [(kb & Hb & _ & Hlast)|(_ & _ & [kf Hkf] & Hlt)].
    + apply index_Some in Hb as [H0 Hb]. apply lookup_lt_Some in Hb.
      rewrite last_lookup in Hkl.
      specialize (Hlast _ _ Hkl (Qclt_le_weak _ _ (Hall _ Hin))).
      destruct l; simplify_eq/=. lia.
    + destruct (Qc_le_lt_false (time kl) t); [apply Qclt_le_weak|]; auto.
  - destruct (select_after l t Hl) as [(ka & Ha & Hle & _)|(Hai & _)]; [|done].
    apply index_Some in Ha as [_ Ha]. apply list_elem_of_lookup_2 in Ha.
    destruct (Qc_le_lt_false _ _ Hle (Hall _ Ha)).
Qed.

(** Where the two selected positions differ and [before] is no exact hit,
    the query time lies after [before]'s time and not after [after]'s: the
    divisor of line 157 is positive. *)
Lemma select_distinct_times (l : list Keyframe) (t : Qc) (kb ka : Keyframe) :
  l ≠ [] →
  index l (selectIndices l t).1 = Some kb → index l (selectIndices l t).2 = Some ka →
  (selectIndices l t).1 ≠ (selectIndices l t).2 → time kb ≠ t →
  time kb < t ∧ t ≤ time ka.
Proof.
  intros Hl Hb Ha Hne Ht.
  destruct (select_before l t Hl) as [(kb' & Hb' & Hle & _)|(_ & _ & _ & Hall)].
  2:{ rewrite (select_below_all l t Hl Hall) in Hne. done. }
  destruct (select_after l t Hl) as [(ka' & Ha' & Hge & _)|(_ & _ & _ & Hall)].
  2:{ rewrite (select_above_all l t Hl Hall) in Hne. done. }
  simplify_eq. split; [|done].
  destruct (Qcle_lt_or_eq _ _ Hle); done.
Qed.

(** The exact-hit test of line 142 comes after the two edge cases. *)
Lemma exact_hit_before (l : list Keyframe) (t : Qc) (kb : Keyframe) :
  index l (selectIndices l t).1 = Some kb → time kb = t →
  getCharacterProps l t = Return (SameObject kb).
Proof.
  intros Hb Ht. rewrite getCharacterProps_eq, Hb.
  by rewrite bool_decide_eq_true_2.
Qed.

(** ** Exact hits *)

Lemma out_of_order_at_30 :
  getCharacterProps out_of_order (time k30) =
    Return (NewObject (mkInterpolated (Finite (num 25 1)) (Finite (num 60 1))
                         (Finite (num 1 1)) (Finite (num 45 2)))).
Proof. qc_true. Qed.

(** C3, as stated for lists in any order, fails: [k30] is in
    [k60; k30; k0], yet at its time 30 the loop leaves [beforeIndex] at the
    keyframe of time 0 and the result is interpolated between times 0 and
    60; its [x] is 25, the [x] of no keyframe of the list. *)
Lemma exact_hit_fails_out_of_order :
  k30 ∈ out_of_order ∧ ¬ exact_hit_spec out_of_order (time k30).
Proof.
  split; [unfold out_of_order; set_solver|].
  intros (bi & kb & r & _ & Hb & Hr & Hp).
  rewrite out_of_order_at_30 in Hr. simplify_eq/=.
  apply index_Some in Hb as [_ Hb].
  apply list_elem_of_lookup_2 in Hb. unfold out_of_order in Hb.
  set_unfold in Hb. destruct Hb as [->|[->|[->|[]]]]; qc_false Hp.
Qed.

(** C3 (amended).  For every non-empty keyframe list in ascending order of
    time and every keyframe [k] in it, the query at [k]'s time returns a
    keyframe object of the list itself, with no interpolation: the one that
    the selection of [before] resolves to, which has that time and is the
    last in sequence order among the keyframes sharing it.  In a list in any
    order the exact-hit test is made on the selected [before] after the
    fallback to the first keyframe: whenever that keyframe's time equals
    the query time it is returned unchanged. *)
Theorem exact_hit (l : list Keyframe) (t : Qc) :
  (∀ kb, index l (selectIndices l t).1 = Some kb → time kb = t →
         getCharacterProps l t = Return (SameObject kb)) ∧
  (sorted_by_time l → ∀ k, k ∈ l → time k = t →
   ∃ kb, index l (selectIndices l t).1 = Some kb ∧ time kb = t ∧
         spec_before l t (selectIndices l t).1 ∧
         (∀ j k', l !! j = Some k' → time k' = t →
                  (Z.of_nat j ≤ (selectIndices l t).1)%Z) ∧
         getCharacterProps l t = Return (SameObject kb)).
Proof.
  split; [apply exact_hit_before|].
  intros Hs k Hk Ht.
  assert (l ≠ []) as Hl by (intros ->; set_solver).
  pose proof (sorted_spec_before l t _ Hs (select_before l t Hl)) as Hspec.
  destruct Hspec as [(kb & Hb & Hle & Hmax & Hlast)|(_ & _ & _ & Hall)].
  - assert (time kb = t) as Hkb.
    { apply Qcle_antisym; [done|]. rewrite <-Ht. apply Hmax; [done|].
      rewrite Ht. apply Qcle_refl. }
    exists kb. split_and!; [done|done| | |by apply exact_hit_before].
    + left. by exists kb.
    + intros j k' Hj Hk'. eapply Hlast; [done|congruence].
  - specialize (Hall k Hk). rewrite Ht in Hall.
    destruct (Qc_le_lt_false t t); [apply Qcle_refl|done].
Qed.

Lemma exact_hit_witness :
  getCharacterProps initial_animations (time k30) = Return (SameObject k30).
Proof.
  destruct (exact_hit initial_animations (time k30)) as [_ Hs].
  destruct (Hs initial_animations_sorted k30) as (kb & Hb & _ & _ & _ & Hr);
    [unfold initial_animations; set_solver|done|].
  rewrite Hr. vm_compute in Hb. by simplify_eq.
Defined.

(** ** Holding the first and the last keyframe *)

(** C4.  For every non-empty keyframe list, a query time below every
    keyframe time returns the first keyframe of the sequence and a query
    time above every keyframe time returns the last one, unchanged; with
    the initial keyframes the query at 150 returns the keyframe of time 90,
    whose properties are x = 10, y = 50, scale = 1, rotation = 0. *)
Theorem hold_at_boundary :
  (∀ (l : list Keyframe) (t : Qc), l ≠ [] →
     ((∀ k, k ∈ l → t < time k) →
      ∃ kf, head l = Some kf ∧ getCharacterProps l t = Return (SameObject kf)) ∧
     ((∀ k, k ∈ l → time k < t) →
      ∃ kl, last l = Some kl ∧ getCharacterProps l t = Return (SameObject kl))) ∧
  getCharacterProps initial_animations (num 150 1) = Return (SameObject k90) ∧
  keyframe_props k90 =
    mkInterpolated (Finite (num 10 1)) (Finite (num 50 1)) (Finite (num 1 1))
      (Finite (num 0 1)).
Proof.
  split; [|split; [qc_true|reflexivity]].
  intros l t Hl. split; intros Hall.
  - destruct (proj2 (head_is_Some l) Hl) as [kf Hkf]. exists kf. split; [done|].
    rewrite getCharacterProps_eq, (select_below_all l t Hl Hall). cbn [fst snd].
    rewrite index_head, Hkf.
    rewrite bool_decide_eq_false_2; [by rewrite bool_decide_eq_true_2|].
    intros Ht. apply (Qc_lt_ne t (time kf)); [|done].
    apply Hall. by eapply head_Some_elem_of.
  - destruct (proj2 (last_is_Some l) Hl) as [kl Hkl]. exists kl. split; [done|].
    rewrite getCharacterProps_eq, (select_above_all l t Hl Hall). cbn [fst snd].
    rewrite index_last, Hkl by done.
    rewrite bool_decide_eq_false_2; [by rewrite bool_decide_eq_true_2|].
    apply Qc_lt_ne, Hall. by apply last_Some_elem_of.
Qed.

Lemma hold_at_boundary_witness :
  (∃ kf, head initial_animations = Some kf ∧
         getCharacterProps initial_animations (num (-5) 1) = Return (SameObject kf)) ∧
  (∃ kl, last initial_animations = Some kl ∧
         getCharacterProps initial_animations (num 150 1) = Return (SameObject kl)).
Proof.
  destruct hold_at_boundary as [H _]. split.
  - apply (H initial_animations (num (-5) 1)); [done|].
    intros k Hk. unfold initial_animations in Hk. set_unfold in Hk.
    destruct Hk as [->|[->|[->|[->|[]]]]]; qc_true.
  - apply (H initial_animations (num 150 1)); [done|].
    intros k Hk. unfold initial_animations in Hk. set_unfold in Hk.
    destruct Hk as [->|[->|[->|[->|[]]]]]; qc_true.
Defined.

(** ** A single keyframe *)

(** C6.  For a list of exactly one keyframe and every query time (below,
    equal to or above the keyframe's time) the result is that keyframe,
    unchanged. *)
Theorem single_keyframe (k : Keyframe) (t : Qc) :
  getCharacterProps [k] t = Return (SameObject k).
Proof.
  unfold getCharacterProps, selectIndices. simpl.
  destruct (bool_decide (time k ≤ t)), (bool_decide (t ≤ time k)); simpl;
    by destruct (bool_decide (time k = t)).
Qed.

(** ** The empty list *)

(** C8, as stated, fails: with no keyframe the call does not end with an
    error named [EmptyKeyframeList]. *)
Lemma empty_list_not_EmptyKeyframeList :
  getCharacterProps [] (num 0 1) ≠ Throw "EmptyKeyframeList".
Proof. by vm_compute. Qed.

(** C8 (amended).  With an empty keyframe list the call returns no
    property record at all, default or other: both selected indices fall
    outside the array ([beforeIndex] is 0 and [afterIndex] is -1) and
    reading [animations[0].time] throws the runtime's [TypeError]; the code
    has no error of its own for the empty list. *)
Theorem empty_list_throws (t : Qc) :
  selectIndices [] t = (0%Z, (-1)%Z) ∧
  index [] 0 = None ∧
  getCharacterProps [] t = Throw "TypeError" ∧
  ∀ r, getCharacterProps [] t ≠ Return r.
Proof. by split_and!. Qed.

Lemma empty_list_throws_witness :
  getCharacterProps [] (num 45 1) = Throw "TypeError".
Proof. apply (empty_list_throws (num 45 1)). Defined.

(** ** The playback clock *)

Lemma mount_inv (t0 : Z) : frames_inv (mount t0).
Proof. done. Qed.

Lemma requestAnimationFrame_inv (s : Editor) :
  isPlaying s = true → frames s = ∅ →
  frames_inv (requestAnimationFrame (duration s) s).
Proof.
  intros Hp He. unfold frames_inv. simpl. rewrite Hp, He.
  exists (nextHandle s). by rewrite insert_empty.
Qed.

Lemma cleanup_frames (s : Editor) (h : positive) (d : Qc) :
  animationFrame s = Some h → frames s = {[h := d]} → frames (cleanup s) = ∅.
Proof.
  intros Hh Hf. unfold cleanup. rewrite Hh. simpl.
  by rewrite Hf, delete_singleton_eq.
Qed.

(** The effect, run with its cleanup after a change of [isPlaying] or of
    the duration, restores the invariant; [was] is the value of [isPlaying]
    seen by the previous run, to which the pending frames belong. *)
Lemma playbackEffect_inv (was : bool) (s : Editor) :
  (if was then ∃ h d, animationFrame s = Some h ∧ frames s = {[h := d]}
   else frames s = ∅) →
  frames_inv (playbackEffect was s).
Proof.
  intros Hf. unfold playbackEffect.
  assert (frames (if was then cleanup s else s) = ∅) as He.
  { destruct was; [|done]. destruct Hf as (h & d & Hh & Hf).
    by eapply cleanup_frames. }
  destruct (isPlaying (if was then cleanup s else s)) eqn:Hp.
  - by apply requestAnimationFrame_inv.
  - unfold frames_inv. by rewrite Hp.
Qed.

Lemma step_inv (s : Editor) (e : event) : frames_inv s → frames_inv (step s e).
Proof.
  intros Hinv. destruct e as [| | | |h now|d' a']; simpl; try done.
  - apply playbackEffect_inv. simpl. unfold frames_inv in Hinv.
    destruct (isPlaying s); [|done].
    destruct Hinv as (h & Hh & Hf). by exists h, (duration s).
  - unfold frames_inv in Hinv. destruct (isPlaying s) eqn:Hp.
    + destruct Hinv as (h' & Hh & Hf). rewrite Hf.
      destruct (decide (h' = h)) as [->|Hne].
      * rewrite lookup_singleton_eq. unfold frames_inv. simpl.
        rewrite delete_singleton_eq, insert_empty. by eexists.
      * rewrite lookup_singleton_ne by done. unfold frames_inv.
        rewrite Hp. by exists h'.
    + rewrite Hinv, lookup_empty. unfold frames_inv. by rewrite Hp.
  - unfold frames_inv in Hinv. case_decide as Hd.
    + unfold frames_inv. simpl. by rewrite Hd.
    + apply playbackEffect_inv. simpl.
      destruct (isPlaying s); [|done].
      destruct Hinv as (h & Hh & Hf). by exists h, (duration s).
Qed.

Lemma run_inv (s : Editor) (es : list event) : frames_inv s → frames_inv (run s es).
Proof.
  revert s. induction es as [|e es IH]; intros s Hinv; [done|].
  simpl. by apply IH, step_inv.
Qed.

(** In a reachable state the closure of a pending callback holds the
    current duration. *)
Lemma pending_duration (s : Editor) (h : positive) (d : Qc) :
  frames_inv s → frames s !! h = Some d → d = duration s ∧ isPlaying s = true.
Proof.
  unfold frames_inv. destruct (isPlaying s).
  - intros (h' & _ & ->) [_ <-]%lookup_singleton_Some. done.
  - intros ->. by rewrite lookup_empty.
Qed.

Lemma advance_wrap (d delta prev : Qc) : d ≤ prev + delta → advance d delta prev = 0.
Proof. intros H. unfold advance. by rewrite bool_decide_eq_true_2. Qed.

Lemma advance_add (d delta prev : Qc) :
  prev + delta < d → advance d delta prev = prev + delta.
Proof.
  intros H. unfold advance. rewrite bool_decide_eq_false_2; [done|].
  by apply Qc_lt_nle.
Qed.

Lemma step_AnimationFrame_time (s : Editor) (h : positive) (now : Z) (d : Qc) :
  frames s !! h = Some d →
  currentTime (step s (AnimationFrame h now)) =
    advance d (deltaTime s now) (currentTime s).
Proof. intros Hh. simpl. by rewrite Hh. Qed.

(** C5.  A tick, the run of a pending [updateAnimation] whose closure holds
    duration [d], sets [currentTime] to 0 whenever [currentTime + delta] is
    at least [d], however large the overshoot, and to [currentTime + delta]
    otherwise; this holds for every [d] and every [delta], so in particular
    for [d > 0] and [delta >= 0].  In every state reached from the mounted
    component [d] is the state's duration.  At [currentTime = 118],
    [duration = 120], [delta = 5] the new time is 0, not 3. *)
Theorem tick_wraps_to_zero :
  (∀ (s : Editor) (h : positive) (now : Z) (d : Qc),
     frames s !! h = Some d →
     (d ≤ currentTime s + deltaTime s now →
      currentTime (step s (AnimationFrame h now)) = 0) ∧
     (currentTime s + deltaTime s now < d →
      currentTime (step s (AnimationFrame h now)) = currentTime s + deltaTime s now)) ∧
  (∀ (t0 : Z) (es : list event) (h : positive) (d : Qc),
     frames (run (mount t0) es) !! h = Some d → d = duration (run (mount t0) es)) ∧
  (currentTime at_118 = num 118 1 ∧ duration at_118 = num 120 1 ∧
   frames at_118 !! 2%positive = Some (num 120 1) ∧
   deltaTime at_118 123000 = num 5 1 ∧
   currentTime (step at_118 (AnimationFrame 2 123000)) = num 0 1 ∧
   currentTime (step at_118 (AnimationFrame 2 123000)) ≠ num 3 1).
Proof.
  split_and!.
  - intros s h now d Hh. rewrite (step_AnimationFrame_time s h now d Hh).
    split; [apply advance_wrap|apply advance_add].
  - intros t0 es h d Hh.
    by destruct (pending_duration _ h d (run_inv _ es (mount_inv t0)) Hh).
  - qc_true.
  - qc_true.
  - by vm_compute.
  - qc_true.
  - qc_true.
  - intros H. qc_false H.
Qed.

Lemma tick_wraps_to_zero_witness :
  currentTime (step at_118 (AnimationFrame 2 123000)) = 0 ∧
  currentTime (step at_118 (AnimationFrame 2 119000)) =
    currentTime at_118 + deltaTime at_118 119000 ∧
  num 120 1 = duration at_118.
Proof.
  destruct tick_wraps_to_zero as (H & Hd & _). split_and!.
  - apply (H at_118 2%positive 123000%Z (num 120 1)); [by vm_compute|qc_true].
  - apply (H at_118 2%positive 119000%Z (num 120 1)); [by vm_compute|qc_true].
  - apply (Hd 0%Z [ClickPlayPause; AnimationFrame 1 118000] 2%positive).
    by vm_compute.
Defined.

(** ** The time controls *)

Lemma Math_max_spec (a b : Qc) :
  a ≤ Math_max a b ∧ b ≤ Math_max a b ∧ (Math_max a b = a ∨ Math_max a b = b).
Proof.
  unfold Math_max. case_bool_decide as H.
  - split_and!; [done|apply Qcle_refl|by right].
  - split_and!; [apply Qcle_refl|by apply Qclt_le_weak, Qc_nle_lt|by left].
Qed.

Lemma Math_min_spec (a b : Qc) :
  Math_min a b ≤ a ∧ Math_min a b ≤ b ∧ (Math_min a b = a ∨ Math_min a b = b).
Proof.
  unfold Math_min. case_bool_decide as H.
  - split_and!; [apply Qcle_refl|done|by left].
  - split_and!; [by apply Qclt_le_weak, Qc_nle_lt|apply Qcle_refl|by right].
Qed.

Lemma Qc_sub_10_le (a : Qc) : a - num 10 1 ≤ a.
Proof.
  rewrite <-(Qcplus_0_r a) at 2. unfold Qcminus.
  apply Qcplus_le_mono_l. qc_true.
Qed.

Lemma Qc_add_10_nonneg (a : Qc) : 0 ≤ a → 0 ≤ a + num 10 1.
Proof. intros H. apply Qcplus_nonneg_nonneg; [done|qc_true]. Qed.

(** C7.  For every clock state with [0 <= currentTime <= duration], the
    back button sets [currentTime] to [max(0, currentTime - 10)], the
    forward button to [min(duration, currentTime + 10)] and the reset
    button to 0; after each of the three [currentTime] is again within
    [0, duration], and [duration] and [isPlaying] are as before. *)
Theorem seek_within_bounds (s : Editor) :
  0 ≤ currentTime s → currentTime s ≤ duration s →
  (currentTime (step s ClickBack10) = Math_max 0 (currentTime s - num 10 1) ∧
   currentTime (step s ClickForward10) =
     Math_min (duration s) (currentTime s + num 10 1) ∧
   currentTime (step s ClickReset) = 0) ∧
  (∀ e, e = ClickBack10 ∨ e = ClickForward10 ∨ e = ClickReset →
        0 ≤ currentTime (step s e) ∧ currentTime (step s e) ≤ duration (step s e) ∧
        duration (step s e) = duration s ∧ isPlaying (step s e) = isPlaying s).
Proof.
  intros H0 Hd. split; [done|].
  assert (0 ≤ duration s) as H0d by (by eapply Qcle_trans).
  intros e [-> | [-> | ->]]; simpl; split_and!; try done.
  - apply Math_max_spec.
  - destruct (Math_max_spec 0 (currentTime s - num 10 1)) as (_ & _ & [Hm|Hm]);
      rewrite Hm; [done|]. eapply Qcle_trans; [apply Qc_sub_10_le|done].
  - destruct (Math_min_spec (duration s) (currentTime s + num 10 1))
      as (_ & _ & [Hm|Hm]); rewrite Hm; [done|by apply Qc_add_10_nonneg].
  - apply Math_min_spec.
Qed.

Lemma seek_within_bounds_witness :
  currentTime (step (mount 0) ClickBack10) = 0 ∧
  currentTime (step at_118 ClickForward10) = num 120 1 ∧
  currentTime (step at_118 ClickBack10) = num 108 1 ∧
  (0 ≤ currentTime (step at_118 ClickForward10) ∧
   currentTime (step at_118 ClickForward10) ≤ duration (step at_118 ClickForward10)).
Proof.
  assert (0 ≤ currentTime (mount 0)) as Hm0 by qc_true.
  assert (currentTime (mount 0) ≤ duration (mount 0)) as Hm1 by qc_true.
  assert (0 ≤ currentTime at_118) as Ha0 by qc_true.
  assert (currentTime at_118 ≤ duration at_118) as Ha1 by qc_true.
  destruct (seek_within_bounds (mount 0) Hm0 Hm1) as [(Hb0 & _) _].
  destruct (seek_within_bounds at_118 Ha0 Ha1) as [(Hb & Hf & _) Hall].
  split_and!.
  - rewrite Hb0. qc_true.
  - rewrite Hf. qc_true.
  - rewrite Hb. qc_true.
  - destruct (Hall ClickForward10) as (H1 & _); [by right; left|done].
  - destruct (Hall ClickForward10) as (_ & H2 & _); [by right; left|done].
Defined.

(** ** Pausing *)

(** While paused no callback is pending, so no animation frame runs
    [updateAnimation]. *)
Lemma paused_frame_noop (s : Editor) (h : positive) (now : Z) :
  frames_inv s → isPlaying s = false → step s (AnimationFrame h now) = s.
Proof.
  unfold frames_inv. intros Hinv Hp. rewrite Hp in Hinv. simpl.
  by rewrite Hinv, lookup_empty.
Qed.

Lemma paused_frames_noop (s : Editor) (ticks : list (positive * Z)) :
  frames_inv s → isPlaying s = false → run s (tick_events ticks) = s.
Proof.
  intros Hinv Hp. induction ticks as [|[h now] ticks IH]; [done|].
  change (run s (tick_events ((h, now) :: ticks)))
    with (run (step s (AnimationFrame h now)) (tick_events ticks)).
  by rewrite paused_frame_noop.
Qed.

(** [updateAnimation] itself does not test [isPlaying]: called directly on
    the paused clock it moves the time.  The freeze below rests on the
    cancellation made by the cleanup. *)
Remark updateAnimation_unguarded :
  isPlaying (mount 0) = false ∧
  currentTime (updateAnimation (num 120 1) 1000 (mount 0)) = num 1 1.
Proof. split; [done|qc_true]. Qed.

(** C9.  In every state reached from the mounted component by any
    sequence of events: pausing a playing clock cancels the pending
    callback, leaving [isPlaying] false and no callback pending; and while
    [isPlaying] is false, any number of animation frames, whatever their
    handles and time stamps, leaves the whole state, and so [currentTime],
    unchanged. *)
Theorem pause_freezes_time (t0 : Z) (es : list event) :
  (isPlaying (run (mount t0) es) = true →
   isPlaying (step (run (mount t0) es) ClickPlayPause) = false ∧
   frames (step (run (mount t0) es) ClickPlayPause) = ∅ ∧
   currentTime (step (run (mount t0) es) ClickPlayPause) =
     currentTime (run (mount t0) es)) ∧
  (isPlaying (run (mount t0) es) = false →
   ∀ ticks, run (run (mount t0) es) (tick_events ticks) = run (mount t0) es).
Proof.
  pose proof (run_inv (mount t0) es (mount_inv t0)) as Hinv.
  split; intros Hp.
  - pose proof (step_inv _ ClickPlayPause Hinv) as Hinv'.
    assert (isPlaying (step (run (mount t0) es) ClickPlayPause) = false) as Hp'.
    { simpl. unfold playbackEffect. rewrite Hp. simpl.
      unfold cleanup. by destruct (animationFrame (run (mount t0) es)). }
    split_and!; [done| |].
    + unfold frames_inv in Hinv'. by rewrite Hp' in Hinv'.
    + simpl. unfold playbackEffect. rewrite Hp. simpl.
      unfold cleanup. by destruct (animationFrame (run (mount t0) es)).
  - intros ticks. by apply paused_frames_noop.
Qed.

Lemma pause_freezes_time_witness :
  currentTime (run (mount 0) [ClickPlayPause; AnimationFrame 1 16000]) = num 16 1 ∧
  currentTime
    (run (run (mount 0) [ClickPlayPause; AnimationFrame 1 16000; ClickPlayPause])
       (tick_events [(2%positive, 19000%Z); (1%positive, 25000%Z)])) = num 16 1.
Proof.
  split; [qc_true|].
  destruct (pause_freezes_time 0 [ClickPlayPause; AnimationFrame 1 16000; ClickPlayPause])
    as [_ H].
  rewrite H; [qc_true|by vm_compute].
Defined.

(** * Further properties of the code *)

(** ** Rational arithmetic through [Q] *)

Lemma Qc_eq_Qeq (a b : Qc) : a = b ↔ (this a == this b)%Q.
Proof. split; [by intros ->|apply Qc_is_canon]. Qed.

(** Turns statements on [Qc] into statements on the underlying fractions,
    where [lra] and [nra] apply. *)
Ltac qc_to_q :=
  rewrite ?Qc_eq_Qeq in *;
  unfold Qcle, Qclt, Qcminus, Qcdiv, Qcplus, Qcopp, Qcmult, num, of_int, Q2Qc in *;
  cbn [this] in *;
  rewrite ?Qred_correct in *.

(** ** The interpolator, case by case *)

Lemma index_elem_of (l : list Keyframe) (i : Z) (k : Keyframe) :
  index l i = Some k → k ∈ l.
Proof. intros [_ H]%index_Some. by eapply list_elem_of_lookup_2. Qed.

(** Every call on a non-empty list ends in one of two ways: a keyframe of
    the list returned as it is (an exact hit, or a query time outside all
    keyframe times), or an interpolation between two keyframes at distinct
    positions whose times bracket the query time. *)
Lemma getCharacterProps_cases (l : list Keyframe) (t : Qc) :
  l ≠ [] →
  (∃ kb, kb ∈ l ∧ getCharacterProps l t = Return (SameObject kb) ∧
         (time kb = t
          ∨ (head l = Some kb ∧ ∀ k, k ∈ l → t < time k)
          ∨ (last l = Some kb ∧ ∀ k, k ∈ l → time k < t)))
  ∨ (∃ kb ka, index l (selectIndices l t).1 = Some kb ∧
              index l (selectIndices l t).2 = Some ka ∧
              (selectIndices l t).1 ≠ (selectIndices l t).2 ∧
              time kb < t ∧ t ≤ time ka ∧
              getCharacterProps l t = Return (NewObject (interpolate kb ka t))).
Proof.
  intros Hl.
  destruct (select_before_Some l t Hl) as [kb Hb].
  destruct (select_after_Some l t Hl) as [ka Ha].
  pose proof (index_elem_of _ _ _ Hb) as Hbin.
  rewrite getCharacterProps_eq, Hb, Ha.
  case_bool_decide as Ht; [left; exists kb; by auto|].
  case_bool_decide as Hidx.
  - left. exists kb. split_and!; [done|done|]. right.
    destruct (select_before l t Hl) as [(kb' & Hb' & Hle & _)|(_ & Hh & _ & Hall)].
    + destruct (select_after l t Hl) as [(ka' & Ha' & Hge & _)|(_ & Hla & _ & Hall)].
      * rewrite <-Hidx in Ha'. simplify_eq.
        destruct Ht. by apply Qcle_antisym.
      * right. rewrite <-Hidx in Hla. rewrite Hb in Hla. by split.
    + left. rewrite Hb in Hh. by split.
  - right. exists kb, ka.
    destruct (select_distinct_times l t kb ka) as [H1 H2]; done.
Qed.

(** X2.  On a non-empty list in ascending order of time every result has
    one of two shapes: a keyframe of the list returned as it is, when the
    query time is the time of that keyframe or lies outside all keyframe
    times (then the first, respectively the last keyframe); or the
    interpolation between two consecutive keyframes whose times strictly
    bracket the query time.  Nothing else is ever returned. *)
Theorem sorted_result_shape (l : list Keyframe) (t : Qc) :
  sorted_by_time l → l ≠ [] →
  (∃ k, k ∈ l ∧ getCharacterProps l t = Return (SameObject k) ∧
        (time k = t
         ∨ (head l = Some k ∧ ∀ k', k' ∈ l → t < time k')
         ∨ (last l = Some k ∧ ∀ k', k' ∈ l → time k' < t)))
  ∨ (∃ i b a, l !! i = Some b ∧ l !! S i = Some a ∧ time b < t ∧ t < time a ∧
              getCharacterProps l t = Return (NewObject (interpolate b a t))).
Proof.
  intros Hs Hl.
  destruct (getCharacterProps_cases l t Hl)
    as [Hsame|(kb & ka & Hb & Ha & Hne & Hlt & Hle & Hr)]; [by left|right].
  pose proof (index_elem_of _ _ _ Hb) as Hbin.
  pose proof (index_elem_of _ _ _ Ha) as Hain.
  destruct (select_before l t Hl) as [(kb' & Hb' & _ & Hlast)|(_ & _ & _ & Hall)].
  2:{ destruct (Qc_le_lt_false (time kb) t); [by apply Qclt_le_weak|by apply Hall]. }
  destruct (select_after l t Hl) as [(ka' & Ha' & _ & Hfirst)|(_ & _ & _ & Hall)].
  2:{ destruct (Qc_le_lt_false t (time ka)); [done|by apply Hall]. }
  simplify_eq.
  apply index_Some in Hb as [Hb0 Hb]. apply index_Some in Ha as [Ha0 Ha].
  set (bi := (selectIndices l t).1) in *. set (ai := (selectIndices l t).2) in *.
  assert (bi < ai)%Z as Hba.
  { destruct (decide (bi < ai)%Z) as [|Hge]; [done|].
    pose proof (sorted_lookup_le l (Z.to_nat ai) (Z.to_nat bi) ka kb Hs Ha Hb
                  ltac:(lia)) as Hab.
    destruct (Qc_le_lt_false t (time kb)); [by eapply Qcle_trans|done]. }
  assert (t < time ka) as Hta.
  { destruct (Qcle_lt_or_eq _ _ Hle) as [|Heq]; [done|].
    assert (time ka ≤ t) as Hka by (rewrite Heq; apply Qcle_refl).
    specialize (Hlast _ _ Ha Hka). lia. }
  pose proof (lookup_lt_Some _ _ _ Ha) as Hlen.
  destruct (lookup_lt_is_Some_2 l (S (Z.to_nat bi))) as [k' Hk']; [lia|].
  assert (t < time k') as Htk'.
  { apply Qc_nle_lt. intros Hk. specialize (Hlast _ _ Hk' Hk). lia. }
  specialize (Hfirst _ _ Hk' (Qclt_le_weak _ _ Htk')).
  assert (Z.to_nat ai = S (Z.to_nat bi)) as Hai by lia.
  exists (Z.to_nat bi), kb, ka. rewrite <-Hai. by split_and!.
Qed.

Lemma sorted_result_shape_witness :
  ∃ i b a, initial_animations !! i = Some b ∧ initial_animations !! S i = Some a ∧
           time b < num 45 1 ∧ num 45 1 < time a ∧
           getCharacterProps initial_animations (num 45 1) =
             Return (NewObject (interpolate b a (num 45 1))).
Proof.
  destruct (sorted_result_shape initial_animations (num 45 1)
              initial_animations_sorted) as [(k & _ & Hk & _)|H]; [done| |done].
  exfalso. revert Hk.
  replace (getCharacterProps initial_animations (num 45 1))
    with (Return (NewObject (interpolate k30 k60 (num 45 1)))) by qc_true.
  done.
Defined.

(** ** Runs of the playback clock *)

(** The playback effect touches only the ref and the pending callbacks. *)
Lemma playbackEffect_fields (was : bool) (s : Editor) :
  currentTime (playbackEffect was s) = currentTime s ∧
  duration (playbackEffect was s) = duration s ∧
  isPlaying (playbackEffect was s) = isPlaying s ∧
  lastUpdateTime (playbackEffect was s) = lastUpdateTime s ∧
  animations (playbackEffect was s) = animations s.
Proof.
  unfold playbackEffect, cleanup.
  destruct was, (animationFrame s), (isPlaying s) eqn:Hp; simpl; by rewrite ?Hp.
Qed.

Lemma deltaTime_nonneg (s : Editor) (now : Z) :
  (lastUpdateTime s ≤ now)%Z → 0 ≤ deltaTime s now.
Proof.
  intros Hle. unfold deltaTime.
  assert (of_int (lastUpdateTime s) ≤ of_int now) as Hq.
  { unfold of_int, Qcle, Q2Qc. cbn [this]. rewrite !Qred_correct.
    by rewrite <-Zle_Qle. }
  assert ((of_int now - of_int (lastUpdateTime s)) / num 1000 1 * num 1000 1
          = of_int now - of_int (lastUpdateTime s)) as Hd.
  { field. intros H. qc_false H. }
  revert Hd Hq.
  generalize ((of_int now - of_int (lastUpdateTime s)) / num 1000 1).
  generalize (of_int now) (of_int (lastUpdateTime s)). intros a b q Hd Hq.
  qc_to_q. lra.
Qed.

Lemma advance_in_range (d delta prev : Qc) :
  0 ≤ prev → prev ≤ d → 0 ≤ delta →
  0 ≤ advance d delta prev ∧ advance d delta prev ≤ d.
Proof.
  intros H0 Hd Hdelta. unfold advance. case_bool_decide as Hw.
  - split; [apply Qcle_refl|exact (Qcle_trans _ _ _ H0 Hd)].
  - apply Qc_nle_lt in Hw. split; [|by apply Qclt_le_weak].
    by apply Qcplus_nonneg_nonneg.
Qed.

Lemma step_time_inv (s : Editor) (e : event) :
  frames_inv s → time_inv s → admissible s e → time_inv (step s e).
Proof.
  intros Hf [H0 Hd] Ha. unfold time_inv.
  assert (0 ≤ duration s) as H0d by exact (Qcle_trans _ _ _ H0 Hd).
  destruct e as [| | | |h now|d' a']; simpl.
  - destruct (Math_max_spec 0 (currentTime s - num 10 1)) as (Hm & _ & Hr).
    split; [done|]. destruct Hr as [Hr|Hr]; rewrite Hr; [done|].
    exact (Qcle_trans _ _ _ (Qc_sub_10_le _) Hd).
  - by destruct (playbackEffect_fields (isPlaying s)
        (mkEditor (currentTime s) (negb (isPlaying s)) (duration s) (animations s)
           (lastUpdateTime s) (animationFrame s) (frames s) (nextHandle s)))
      as (-> & -> & _).
  - split; [apply Qcle_refl|done].
  - destruct (Math_min_spec (duration s) (currentTime s + num 10 1))
      as (Hm & _ & Hr).
    split; [|done]. destruct Hr as [Hr|Hr]; rewrite Hr;
      [done|by apply Qc_add_10_nonneg].
  - destruct (frames s !! h) as [d|] eqn:Hh; [|done].
    destruct (pending_duration s h d Hf Hh) as [-> _]. simpl.
    apply advance_in_range; [done|done|by apply deltaTime_nonneg].
  - simpl in Ha. case_decide; [done|].
    by destruct (playbackEffect_fields (isPlaying s)
        (mkEditor (currentTime s) (isPlaying s) d' a' (lastUpdateTime s)
           (animationFrame s) (frames s) (nextHandle s))) as (-> & -> & _).
Qed.

Lemma run_time_inv (s : Editor) (es : list event) :
  frames_inv s → time_inv s → admissible_run s es → time_inv (run s es).
Proof.
  revert s. induction es as [|e es IH]; intros s Hf Ht Ha; [done|].
  destruct Ha as [Ha Hrest]. simpl.
  apply IH; [by apply step_inv|by apply step_time_inv|done].
Qed.

(** ** Percentages of the duration *)

Lemma percent_finite (a d : Qc) :
  d ≠ 0 → percent a d = Finite (a / d * num 100 1).
Proof. intros Hd. unfold percent, js_div. by rewrite decide_False. Qed.

Lemma Qc_pos_ne_0 (d : Qc) : 0 < d → d ≠ 0.
Proof. intros H ->. by apply (Qc_le_lt_false 0 0); [apply Qcle_refl|]. Qed.

Lemma percent_le (a b d : Qc) :
  0 < d → a ≤ b ↔ a / d * num 100 1 ≤ b / d * num 100 1.
Proof.
  intros Hd. pose proof (Qc_pos_ne_0 d Hd) as Hne.
  assert (a / d * d = a) as Ha by (by field).
  assert (b / d * d = b) as Hb by (by field).
  revert Ha Hb. generalize (a / d) (b / d). intros p q Ha Hb.
  qc_to_q. split; intros; nra.
Qed.

Lemma percent_within (a d : Qc) :
  0 < d → 0 ≤ a → a ≤ d → within 0 (num 100 1) (percent a d).
Proof.
  intros Hd H0 Had. rewrite percent_finite by (by apply Qc_pos_ne_0). simpl.
  assert (0 / d * num 100 1 = 0) as E0 by (field; by apply Qc_pos_ne_0).
  assert (d / d * num 100 1 = num 100 1) as E1 by (field; by apply Qc_pos_ne_0).
  split.
  - rewrite <-E0. by apply percent_le.
  - rewrite <-E1 at 2. by apply percent_le.
Qed.

(** X4.  Along every run from the mounted component in which the time
    stamps of the delivered frames do not decrease and no edited document
    has a duration below the current time, [currentTime] stays within
    [0, duration]: through play, pause, ticks with their wrap to 0, the
    three seek buttons and document changes; so with a positive duration
    the playhead stays between 0% and 100% of the timeline. *)
Theorem time_stays_on_timeline (t0 : Z) (es : list event) :
  admissible_run (mount t0) es →
  time_inv (run (mount t0) es) ∧
  (0 < duration (run (mount t0) es) →
   within 0 (num 100 1) (playhead_left (run (mount t0) es))).
Proof.
  intros Ha.
  assert (time_inv (run (mount t0) es)) as Ht.
  { apply run_time_inv; [apply mount_inv| |done]. split; qc_true. }
  split; [done|]. intros Hd. destruct Ht. by apply percent_within.
Qed.

Lemma time_stays_on_timeline_witness :
  time_inv (run (mount 0)
              [ClickPlayPause; AnimationFrame 1 118000; ClickForward10;
               AnimationFrame 2 123000; DocumentChange (num 60 1) initial_animations;
               AnimationFrame 4 150000; ClickBack10; ClickPlayPause]).
Proof.
  apply time_stays_on_timeline.
  simpl. split_and!; try done; lia.
Defined.

(** While paused nothing but the play button changes [isPlaying] or the
    stamp of the last tick. *)
Lemma paused_step (s : Editor) (e : event) :
  frames_inv s → isPlaying s = false → e ≠ ClickPlayPause →
  isPlaying (step s e) = false ∧ lastUpdateTime (step s e) = lastUpdateTime s.
Proof.
  intros Hf Hp He. destruct e as [| | | |h now|d' a']; try done.
  - by rewrite (paused_frame_noop s h now Hf Hp).
  - simpl. case_decide; [done|].
    destruct (playbackEffect_fields (isPlaying s)
        (mkEditor (currentTime s) (isPlaying s) d' a' (lastUpdateTime s)
           (animationFrame s) (frames s) (nextHandle s))) as (_ & _ & -> & -> & _).
    done.
Qed.

Lemma paused_run (s : Editor) (es : list event) :
  frames_inv s → isPlaying s = false → ClickPlayPause ∉ es →
  isPlaying (run s es) = false ∧ lastUpdateTime (run s es) = lastUpdateTime s.
Proof.
  revert s. induction es as [|e es IH]; intros s Hf Hp Hes; [done|].
  apply not_elem_of_cons in Hes as [He Hes].
  destruct (paused_step s e Hf Hp) as [Hp' Hl']; [done|].
  simpl. rewrite <-Hl'. apply IH; [by apply step_inv|done|done].
Qed.

(** Pressing play on a paused clock requests one frame, whose run advances
    from the stamp that the state holds. *)
Lemma play_then_frame (s : Editor) (now : Z) :
  isPlaying s = false →
  animationFrame (step s ClickPlayPause) = Some (nextHandle s) ∧
  currentTime (step (step s ClickPlayPause) (AnimationFrame (nextHandle s) now)) =
    advance (duration s) (deltaTime s now) (currentTime s).
Proof.
  intros Hp. simpl. unfold playbackEffect. rewrite Hp. simpl.
  by rewrite lookup_insert_eq.
Qed.

Lemma run_app (s : Editor) (es es' : list event) :
  run s (es ++ es') = run (run s es) es'.
Proof. apply foldl_app. Qed.

(** X6.  Pressing play does not read the clock: after a pause, whatever
    happens while paused (seeks, document edits, stray frames), the first
    tick after play advances [currentTime] by the time elapsed since the
    last tick before the pause (since mounting, if there was none), so the
    paused interval is counted as playback time. *)
Theorem resume_counts_paused_time (t0 : Z) (es es' : list event) (now : Z) :
  isPlaying (run (mount t0) es) = false → ClickPlayPause ∉ es' →
  ∃ h, animationFrame (step (run (mount t0) (es ++ es')) ClickPlayPause) = Some h ∧
       currentTime (run (mount t0) (es ++ es' ++ [ClickPlayPause; AnimationFrame h now])) =
         advance (duration (run (mount t0) (es ++ es')))
           ((of_int now - of_int (lastUpdateTime (run (mount t0) es))) / num 1000 1)
           (currentTime (run (mount t0) (es ++ es'))).
Proof.
  intros Hp Hes'.
  pose proof (run_inv (mount t0) es (mount_inv t0)) as Hinv.
  destruct (paused_run (run (mount t0) es) es' Hinv Hp Hes') as [Hp' Hl'].
  rewrite <-run_app in Hp', Hl'.
  exists (nextHandle (run (mount t0) (es ++ es'))).
  destruct (play_then_frame (run (mount t0) (es ++ es')) now Hp') as [Hh Hc].
  split; [done|].
  rewrite (assoc_L (++)), run_app.
  change (run ?s [ClickPlayPause; AnimationFrame ?h now])
    with (step (step s ClickPlayPause) (AnimationFrame h now)).
  rewrite Hc. unfold deltaTime. by rewrite Hl'.
Qed.

Lemma resume_counts_paused_time_witness :
  ∃ h, currentTime
         (run (mount 0)
            ([ClickPlayPause; AnimationFrame 1 1000; ClickPlayPause] ++ [ClickReset] ++
             [ClickPlayPause; AnimationFrame h 51000])) = num 50 1.
Proof.
  destruct (resume_counts_paused_time 0
              [ClickPlayPause; AnimationFrame 1 1000; ClickPlayPause] [ClickReset] 51000)
    as (h & _ & Hc); [done|apply not_elem_of_cons; split; [done|apply not_elem_of_nil]|].
  exists h. rewrite Hc. qc_true.
Defined.

(** ** The timeline markers *)

Lemma of_int_le (a b : Z) : (a ≤ b)%Z ↔ of_int a ≤ of_int b.
Proof.
  unfold of_int, Qcle, Q2Qc. cbn [this]. rewrite !Qred_correct.
  by rewrite Zle_Qle.
Qed.

(** [Math.ceil(q)] is the least integer that is at least [q]. *)
Lemma Math_ceil_le (q : Qc) (z : Z) : (Math_ceil q ≤ z)%Z ↔ q ≤ of_int z.
Proof.
  unfold Math_ceil. split.
  - intros Hle. apply Qcle_trans with (of_int (Qceiling q)).
    + unfold of_int, Qcle, Q2Qc. cbn [this]. rewrite Qred_correct.
      apply Qle_ceiling.
    + exact (proj1 (of_int_le _ _) Hle).
  - intros Hle. rewrite <-(Qceiling_Z z). apply Qceiling_resp_le.
    revert Hle. unfold of_int, Qcle, Q2Qc. cbn [this]. by rewrite Qred_correct.
Qed.

(** The quotient by 30 against an integer, without the division. *)
Lemma div_30_le (d : Qc) (z : Z) : d / num 30 1 ≤ of_int z ↔ d ≤ of_int (z * 30).
Proof.
  assert (d / num 30 1 * num 30 1 = d) as Hc.
  { field. intros H. qc_false H. }
  assert (of_int (z * 30) = of_int z * num 30 1) as ->.
  { apply Qc_is_canon. unfold of_int, num, Qcmult, Q2Qc. cbn [this].
    rewrite !Qred_correct, inject_Z_mult. reflexivity. }
  revert Hc. generalize (d / num 30 1) (of_int z). intros c n Hc.
  qc_to_q. split; intros; lra.
Qed.

Lemma timeline_markers_eq (d : Qc) :
  (Math_ceil (d / num 30 1) + 1 ≤ 2 ^ 32 - 1)%Z →
  timeline_markers d =
    Return ((λ i, i * 30)%Z <$> seqZ 0 (Math_ceil (d / num 30 1) + 1)).
Proof.
  intros H. unfold timeline_markers, Array_from.
  rewrite bool_decide_eq_false_2; [done|lia].
Qed.

(** X9.  For a duration from 0 up to 30 * (2^32 - 2) the timeline shows
    the markers 0, 30, 60, ..., 30 n, where 30 n is the first multiple of
    30 that is at least the duration (30 (n - 1) is still below it): the
    markers reach the end of the timeline and none is made beyond. *)
Theorem timeline_markers_cover (d : Qc) :
  0 ≤ d → d ≤ of_int (30 * (2 ^ 32 - 2)) →
  ∃ (ms : list Z) (n : Z),
    timeline_markers d = Return ms ∧ (0 ≤ n)%Z ∧
    length ms = S (Z.to_nat n) ∧
    (∀ i, (i ≤ Z.to_nat n)%nat → ms !! i = Some (Z.of_nat i * 30)%Z) ∧
    d ≤ of_int (n * 30) ∧ of_int ((n - 1) * 30) < d.
Proof.
  intros H0 Hmax.
  set (n := Math_ceil (d / num 30 1)).
  assert (0 ≤ n)%Z as Hn0.
  { destruct (decide (0 ≤ n)%Z) as [|Hneg]; [done|].
    assert (n ≤ -1)%Z as Hle by lia.
    apply Math_ceil_le, div_30_le in Hle.
    pose proof (Qcle_trans _ _ _ H0 Hle) as Hc. qc_false Hc. }
  assert (n ≤ 2 ^ 32 - 2)%Z as Hnmax.
  { apply Math_ceil_le, div_30_le.
    by replace ((2 ^ 32 - 2) * 30)%Z with (30 * (2 ^ 32 - 2))%Z by lia. }
  exists ((λ i, i * 30)%Z <$> seqZ 0 (n + 1)), n.
  split_and!.
  - apply timeline_markers_eq. fold n. lia.
  - done.
  - rewrite length_fmap, length_seqZ. lia.
  - intros i Hi. rewrite list_lookup_fmap, lookup_seqZ_lt by lia. done.
  - apply div_30_le, Math_ceil_le. fold n. lia.
  - apply Qc_nle_lt. intros Hle.
    apply div_30_le, Math_ceil_le in Hle. fold n in Hle. lia.
Qed.

Lemma timeline_markers_cover_witness :
  ∃ (ms : list Z) (n : Z),
    timeline_markers (num 100 1) = Return ms ∧ length ms = S (Z.to_nat n) ∧
    num 100 1 ≤ of_int (n * 30) ∧ of_int ((n - 1) * 30) < num 100 1.
Proof.
  destruct (timeline_markers_cover (num 100 1)) as (ms & n & H1 & _ & H2 & _ & H3 & H4);
    [qc_true|qc_true|].
  by exists ms, n.
Defined.

(** X10.  Outside that range of durations: a duration of at most -30 gives
    no marker at all, a duration in (-30, 0] the single marker 0, and a
    duration above 30 * (2^32 - 2) makes the array construction throw a
    [RangeError]. *)
Theorem timeline_markers_edges (d : Qc) :
  (d ≤ of_int (-30) → timeline_markers d = Return []) ∧
  (of_int (-30) < d → d ≤ 0 → timeline_markers d = Return [0%Z]) ∧
  (of_int (30 * (2 ^ 32 - 2)) < d → timeline_markers d = Throw "RangeError").
Proof.
  set (n := Math_ceil (d / num 30 1)).
  split_and!.
  - intros Hle.
    assert (n ≤ -1)%Z as Hn by (by apply Math_ceil_le, div_30_le).
    rewrite timeline_markers_eq by (fold n; lia). fold n.
    by rewrite seqZ_nil by lia.
  - intros Hlt Hle.
    assert (n ≤ 0)%Z as Hn0 by (by apply Math_ceil_le, div_30_le).
    assert (¬ (n ≤ -1)%Z) as Hn1.
    { intros Hn%Math_ceil_le%div_30_le. by apply (Qc_le_lt_false _ _ Hn). }
    rewrite timeline_markers_eq by (fold n; lia). fold n.
    by replace n with 0%Z by lia.
  - intros Hlt.
    assert (¬ (n ≤ 2 ^ 32 - 2)%Z) as Hn.
    { intros Hn%Math_ceil_le%div_30_le.
      replace ((2 ^ 32 - 2) * 30)%Z with (30 * (2 ^ 32 - 2))%Z in Hn by lia.
      by apply (Qc_le_lt_false _ _ Hn). }
    unfold timeline_markers, Array_from. fold n.
    rewrite bool_decide_eq_true_2; [done|lia].
Qed.

Lemma timeline_markers_edges_witness :
  timeline_markers (num (-45) 1) = Return [] ∧
  timeline_markers (num (-1) 2) = Return [0%Z] ∧
  timeline_markers (num 128849018821 1) = Throw "RangeError".
Proof.
  split_and!.
  - apply (timeline_markers_edges (num (-45) 1)). qc_true.
  - apply (timeline_markers_edges (num (-1) 2)); qc_true.
  - apply (timeline_markers_edges (num 128849018821 1)). qc_true.
Defined.

(** ** Positions on the timeline *)

Lemma percent_0 (d : Qc) : d ≠ 0 → 0 / d * num 100 1 = 0.
Proof. intros Hd. by field. Qed.

Lemma percent_full (d : Qc) : d ≠ 0 → d / d * num 100 1 = num 100 1.
Proof. intros Hd. by field. Qed.

(** X11.  With a positive duration, the dots of two keyframes whose times
    lie within the timeline, [0 <= time_i <= time_j <= duration], are at
    rational percentages [p] and [q] with [0 <= p <= q <= 100]: inside the
    timeline and in the order of the times. *)
Theorem keyframe_dots_inside_in_order (d : Qc) (l : list Keyframe) (i j : nat)
    (ki kj : Keyframe) :
  0 < d → l !! i = Some ki → l !! j = Some kj →
  0 ≤ time ki → time ki ≤ time kj → time kj ≤ d →
  ∃ p q, keyframe_lefts d l !! i = Some (Finite p) ∧
         keyframe_lefts d l !! j = Some (Finite q) ∧
         0 ≤ p ∧ p ≤ q ∧ q ≤ num 100 1.
Proof.
  intros Hd Hi Hj H0 Hij Hjd. pose proof (Qc_pos_ne_0 d Hd) as Hne.
  exists (time ki / d * num 100 1), (time kj / d * num 100 1).
  unfold keyframe_lefts. rewrite !list_lookup_fmap, Hi, Hj. simpl.
  rewrite !percent_finite by done. split_and!; [done|done| | |].
  - pose proof (proj1 (percent_le 0 (time ki) d Hd) H0) as H.
    by rewrite percent_0 in H.
  - by apply percent_le.
  - pose proof (proj1 (percent_le (time kj) d d Hd) Hjd) as H.
    by rewrite percent_full in H.
Qed.

Lemma keyframe_dots_inside_in_order_witness :
  ∃ p q, keyframe_lefts (num 120 1) initial_animations !! 1%nat = Some (Finite p) ∧
         keyframe_lefts (num 120 1) initial_animations !! 2%nat = Some (Finite q) ∧
         0 ≤ p ∧ p ≤ q ∧ q ≤ num 100 1.
Proof.
  apply (keyframe_dots_inside_in_order (num 120 1) initial_animations 1 2 k30 k60);
    try done; qc_true.
Defined.

(** * Computed values in the program's arithmetic *)

(** ** The selection, from the comparisons alone *)

Section operators_facts.
Context {num : Type}.
Variables (add sub mul div : num → num → num).
Variables (le eq : num → num → bool).
Variable zero : num.

Local Abbreviation Keyframe := (Operators.Keyframe num).
Local Abbreviation time := Operators.time.
Local Abbreviation scan := (Operators.scan le).
Local Abbreviation selectIndices := (Operators.selectIndices le).
Local Abbreviation order_laws := (Operators.order_laws le eq).

Lemma order_laws_trans (S : list num) (a b c : num) :
  order_laws S = true → a ∈ S → b ∈ S → c ∈ S →
  le a b = true → le b c = true → le a c = true.
Proof.
  unfold Operators.order_laws. rewrite forallb_forall.
  intros H Ha Hb Hc Hab Hbc.
  specialize (H a (proj1 (list_elem_of_In _ _) Ha)).
  rewrite forallb_forall in H.
  specialize (H b (proj1 (list_elem_of_In _ _) Hb)).
  apply andb_prop in H as [_ H]. rewrite forallb_forall in H.
  specialize (H c (proj1 (list_elem_of_In _ _) Hc)).
  by rewrite Hab, Hbc in H.
Qed.

Lemma order_laws_eq (S : list num) (a b : num) :
  order_laws S = true → a ∈ S → b ∈ S → eq a b = le a b && le b a.
Proof.
  unfold Operators.order_laws. rewrite forallb_forall.
  intros H Ha Hb.
  specialize (H a (proj1 (list_elem_of_In _ _) Ha)).
  rewrite forallb_forall in H.
  specialize (H b (proj1 (list_elem_of_In _ _) Hb)).
  apply andb_prop in H as [H _]. by apply Bool.eqb_prop in H.
Qed.

Lemma generic_index_of_nat (l : list Keyframe) (j : nat) :
  Operators.index l (Z.of_nat j) = l !! j.
Proof.
  unfold Operators.index. rewrite bool_decide_eq_true_2 by lia.
  by rewrite Nat2Z.id.
Qed.

Lemma generic_scan_app (t : num) (l1 l2 : list Keyframe) (i bi ai : Z) :
  scan t (l1 ++ l2) i bi ai =
    scan t l2 (i + Z.of_nat (length l1)) (scan t l1 i bi ai).1 (scan t l1 i bi ai).2.
Proof.
  revert i bi ai. induction l1 as [|k l1 IH]; intros i bi ai; simpl.
  - by rewrite Z.add_0_r.
  - rewrite IH. f_equal. lia.
Qed.

(** Over keyframes whose times are all before [t] the loop moves
    [beforeIndex] to the last of them and leaves [afterIndex]. *)
Lemma generic_scan_below (t : num) (l : list Keyframe) (i bi ai : Z) :
  Forall (λ k, le (time k) t = true ∧ le t (time k) = false) l →
  scan t l i bi ai =
    (match l with [] => bi | _ => (i + Z.of_nat (length l) - 1)%Z end, ai).
Proof.
  intros Hall. revert i bi ai.
  induction Hall as [|k l [Hk1 Hk2] Hall IH]; intros i bi ai; [done|].
  simpl. rewrite Hk1, Hk2. simpl. rewrite IH.
  destruct l; simpl; f_equal; lia.
Qed.

(** Over keyframes whose times are all after [t] the loop leaves
    [beforeIndex], and [afterIndex] once it is set. *)
Lemma generic_scan_above (t : num) (l : list Keyframe) (i bi ai : Z) :
  Forall (λ k, le (time k) t = false) l → ai ≠ (-1)%Z →
  scan t l i bi ai = (bi, ai).
Proof.
  intros Hall Hai. revert i.
  induction Hall as [|k l Hk Hall IH]; intros i; [done|].
  simpl. rewrite Hk. rewrite (bool_decide_eq_false_2 (ai = (-1)%Z)) by done.
  rewrite andb_false_r. apply IH.
Qed.

Lemma generic_select_split (t : num) (l1 l2 : list Keyframe) (b a : Keyframe) :
  Forall (λ k, le (time k) t = true ∧ le t (time k) = false) (l1 ++ [b]) →
  le t (time a) = true →
  Forall (λ k, le (time k) t = false) (a :: l2) →
  selectIndices (l1 ++ b :: a :: l2) t =
    (Z.of_nat (length l1), Z.of_nat (S (length l1))).
Proof.
  intros Hbelow Ha Habove. unfold Operators.selectIndices.
  replace (l1 ++ b :: a :: l2) with ((l1 ++ [b]) ++ a :: l2)
    by (by rewrite <-(assoc_L (++))).
  rewrite generic_scan_app, (generic_scan_below _ _ _ _ _ Hbelow).
  rewrite length_app. cbn [fst snd length].
  destruct (l1 ++ [b]) as [|k l'] eqn:Heq; [by destruct l1|].
  cbn [Operators.scan].
  apply Forall_cons in Habove as [Hka Habove].
  rewrite Hka, Ha. simpl.
  rewrite generic_scan_above by (done || lia).
  rewrite !bool_decide_eq_false_2 by lia. f_equal; lia.
Qed.

Lemma generic_select_sorted_split (l1 l2 : list Keyframe) (t : num) (b a : Keyframe) :
  order_laws (t :: (time <$> l1 ++ b :: a :: l2)) = true →
  Operators.sorted_by_time le (l1 ++ b :: a :: l2) →
  Operators.lt le (time b) t = true → Operators.lt le t (time a) = true →
  selectIndices (l1 ++ b :: a :: l2) t =
    (Z.of_nat (length l1), Z.of_nat (S (length l1))).
Proof.
  intros Hlaws Hs Hbt Hta.
  unfold Operators.lt in Hbt, Hta.
  apply andb_prop in Hbt as [Hbt1 Hbt2]. apply andb_prop in Hta as [Hta1 Hta2].
  apply negb_true_iff in Hbt2, Hta2.
  set (l := l1 ++ b :: a :: l2) in *.
  assert (∀ k, k ∈ l → time k ∈ t :: (time <$> l)) as Hin.
  { intros k Hk. apply list_elem_of_further. by apply list_elem_of_fmap_2. }
  assert (t ∈ t :: (time <$> l)) as Htin by apply list_elem_of_here.
  assert (∀ k, k ∈ l1 → k ∈ l) as Hin1 by (intros k Hk; apply elem_of_app; by left).
  assert (b ∈ l) as Hbin.
  { apply elem_of_app. right. apply list_elem_of_here. }
  assert (a ∈ l) as Hain.
  { apply elem_of_app. right. apply list_elem_of_further, list_elem_of_here. }
  assert (∀ k, k ∈ l2 → k ∈ l) as Hin2.
  { intros k Hk. apply elem_of_app. right. by do 2 apply list_elem_of_further. }
  unfold Operators.sorted_by_time in Hs.
  apply StronglySorted_app in Hs as (Hcross & _ & Hs2).
  apply StronglySorted_cons in Hs2 as [_ Hs2].
  apply StronglySorted_cons in Hs2 as [Hfrom_a _].
  rewrite Forall_forall in Hfrom_a.
  apply generic_select_split.
  - apply Forall_app. split; [|by repeat constructor].
    apply Forall_forall. intros k Hk.
    assert (le (time k) (time b) = true) as Hkb.
    { apply Hcross; [done|]. apply list_elem_of_here. }
    split.
    + eapply (order_laws_trans _ _ (time b)); eauto.
    + destruct (le t (time k)) eqn:Htk; [|done].
      rewrite <-Hbt2. symmetry.
      eapply (order_laws_trans _ _ (time k)); eauto.
  - done.
  - constructor; [done|]. apply Forall_forall. intros k Hk.
    destruct (le (time k) t) eqn:Hkt; [|done].
    rewrite <-Hta2. symmetry.
    eapply (order_laws_trans _ _ (time k)); eauto.
Qed.

(** In a list in ascending order, a query time strictly between the times
    of two consecutive keyframes selects these two. *)
Lemma generic_select_adjacent (l : list Keyframe) (t : num) (i : nat)
    (b a : Keyframe) :
  order_laws (t :: (time <$> l)) = true →
  Operators.sorted_by_time le l →
  l !! i = Some b → l !! S i = Some a →
  Operators.lt le (time b) t = true → Operators.lt le t (time a) = true →
  selectIndices l t = (Z.of_nat i, Z.of_nat (S i)).
Proof.
  intros Hlaws Hs Hb Ha Hbt Hta.
  assert (l = take i l ++ b :: a :: drop (S (S i)) l) as Hsplit.
  { rewrite <-(take_drop i l) at 1. f_equal.
    rewrite (drop_S l b i Hb). f_equal. by rewrite (drop_S l a (S i) Ha). }
  assert (length (take i l) = i) as Hlen.
  { rewrite length_take. apply lookup_lt_Some in Hb. lia. }
  revert Hlaws Hs Hsplit Hlen. generalize (take i l) (drop (S (S i)) l).
  intros l1 l2 Hlaws Hs -> <-. by apply generic_select_sorted_split.
Qed.

Local Abbreviation getCharacterProps :=
  (Operators.getCharacterProps add sub mul div le eq zero).
Local Abbreviation interpolate := (Operators.interpolate add sub mul div eq zero).
Local Abbreviation factor := (Operators.factor sub div eq zero).

(** Between two consecutive keyframes the call returns the object of
    lines 160-165 built from these two. *)
Lemma generic_between_adjacent (l : list Keyframe) (t : num) (i : nat)
    (b a : Keyframe) :
  order_laws (t :: (time <$> l)) = true →
  Operators.sorted_by_time le l →
  l !! i = Some b → l !! S i = Some a →
  Operators.lt le (time b) t = true → Operators.lt le t (time a) = true →
  getCharacterProps l t = Return (Operators.NewObject (interpolate b a t)).
Proof.
  intros Hlaws Hs Hb Ha Hbt Hta.
  unfold Operators.getCharacterProps.
  rewrite (generic_select_adjacent l t i b a) by done.
  rewrite !generic_index_of_nat, Hb, Ha.
  assert (eq (time b) t = false) as ->.
  { rewrite (order_laws_eq (t :: (time <$> l))); [|done| |apply list_elem_of_here].
    - unfold Operators.lt in Hbt. apply andb_prop in Hbt as [-> Hbt].
      by apply negb_true_iff in Hbt as ->.
    - apply list_elem_of_further, list_elem_of_fmap_2.
      by eapply list_elem_of_lookup_2. }
  by rewrite bool_decide_eq_false_2 by lia.
Qed.

(** Lines 157-164 when the difference of the times is not zero. *)
Lemma generic_interpolate_formula (b a : Keyframe) (t : num) :
  eq (sub (time a) (time b)) zero = false →
  interpolate b a t =
    (let f := div (sub t (time b)) (sub (time a) (time b)) in
     {| Operators.ix := add (Operators.x b) (mul (sub (Operators.x a) (Operators.x b)) f);
        Operators.iy := add (Operators.y b) (mul (sub (Operators.y a) (Operators.y b)) f);
        Operators.iscale :=
          add (Operators.scale b)
            (mul (sub (Operators.scale a) (Operators.scale b)) f);
        Operators.irotation :=
          add (Operators.rotation b)
            (mul (sub (Operators.rotation a) (Operators.rotation b)) f) |}).
Proof.
  intros Hd. unfold Operators.interpolate, Operators.factor. by rewrite Hd.
Qed.



End operators_facts.


(** ** Binary64 values *)

Section binary64_facts.
Local Open Scope float_scope.

Lemma sortedb_sorted (l : list Binary64.Keyframe) :
  Binary64.sortedb l = true → Binary64.sorted_by_time l.
Proof.
  unfold Binary64.sortedb, Binary64.sorted_by_time, Operators.sortedb,
    Operators.sorted_by_time.
  induction l as [|k l IH]; intros H; [constructor|].
  apply andb_prop in H as [Hk Hl]. constructor; [by apply IH|].
  rewrite forallb_forall in Hk. apply Forall_forall.
  intros k' Hk'. apply Hk. by apply list_elem_of_In.
Qed.

(** C1, as stated, fails in the program's arithmetic: between the
    keyframes of times 0 and 0.3, at 0.1, the [x] that lines 157-161 compute
    is 30.000000000000004, while the claimed expression
    [b + (a - b) * (t - tb) / (ta - tb)] gives 30. *)
Lemma binary64_claimed_formula_differs :
  Binary64.sortedb [Binary64.drift_before; Binary64.drift_after] = true ∧
  Binary64.lt (Operators.time Binary64.drift_before) (1 / 10) = true ∧
  Binary64.lt (1 / 10) (Operators.time Binary64.drift_after) = true ∧
  Binary64.getCharacterProps [Binary64.drift_before; Binary64.drift_after] (1 / 10) ≠
    Return (Operators.NewObject
              (Binary64.claimed_linear Binary64.drift_before Binary64.drift_after
                 (1 / 10))).
Proof.
  split_and!; [by vm_compute..|].
  intros H.
  apply (f_equal (λ r, match r with
                       | Return (Operators.NewObject p) => Operators.ix p =? 30
                       | _ => true
                       end)) in H.
  vm_compute in H. discriminate.
Qed.

(** C1 (amended).  For every keyframe list in ascending order of time and
    every query time strictly between the times of two consecutive
    keyframes [before] and [after] (the comparisons among the times being
    those of numbers), the result is the new object of lines 160-165 built
    from these two; when [after.time - before.time] is not zero its four
    fields are the binary64 values of
    [before.f + (after.f - before.f) * ((t - before.time) / (after.time - before.time))],
    the factor being computed first and every operation rounded, which is
    the claimed expression up to rounding, not exactly.  On the initial
    keyframes the query at 45 yields x = 55, y = 60, scale = 1.1 (the
    binary64 number nearest to it) and rotation = 22.5. *)
Theorem binary64_between_adjacent :
  (∀ (l : list Binary64.Keyframe) (t : float) (i : nat) (b a : Binary64.Keyframe),
     Binary64.order_laws (t :: (Operators.time <$> l)) = true →
     Binary64.sorted_by_time l →
     l !! i = Some b → l !! S i = Some a →
     Binary64.lt (Operators.time b) t = true →
     Binary64.lt t (Operators.time a) = true →
     Binary64.getCharacterProps l t =
       Return (Operators.NewObject (Binary64.interpolate b a t)) ∧
     ((Operators.time a - Operators.time b =? 0) = false →
      Binary64.interpolate b a t =
        (let f := (t - Operators.time b) / (Operators.time a - Operators.time b) in
         {| Operators.ix := Operators.x b + (Operators.x a - Operators.x b) * f;
            Operators.iy := Operators.y b + (Operators.y a - Operators.y b) * f;
            Operators.iscale :=
              Operators.scale b + (Operators.scale a - Operators.scale b) * f;
            Operators.irotation :=
              Operators.rotation b
              + (Operators.rotation a - Operators.rotation b) * f |}))) ∧
  Binary64.getCharacterProps Binary64.initial_animations 45 =
    Return (Operators.NewObject
              {| Operators.ix := 55; Operators.iy := 60;
                 Operators.iscale := 11 / 10; Operators.irotation := 45 / 2 |}).
Proof.
  split; [|by vm_compute].
  intros l t i b a Hlaws Hs Hb Ha Hbt Hta. split.
  - by apply (generic_between_adjacent _ _ _ _ _ _ _ l t i b a).
  - intros Hd. by apply generic_interpolate_formula.
Qed.

Lemma binary64_between_adjacent_witness :
  Binary64.getCharacterProps Binary64.initial_animations 45 =
    Return (Operators.NewObject (Binary64.interpolate Binary64.k30 Binary64.k60 45)) ∧
  Operators.ix (Binary64.interpolate Binary64.k30 Binary64.k60 45)
    = 70 + (40 - 70) * ((45 - 30) / (60 - 30)).
Proof.
  destruct binary64_between_adjacent as [H _].
  destruct (H Binary64.initial_animations 45 1%nat Binary64.k30 Binary64.k60)
    as [Hr Hf]; [by vm_compute|by apply sortedb_sorted|done|done|by vm_compute..|].
  split; [exact Hr|]. rewrite Hf by (by vm_compute). reflexivity.
Defined.




End binary64_facts.

(** * Runs in which every render completes *)

(** X5.  Along every run from the mounted component in which every render
    completes, there is exactly one pending animation frame callback while
    playing and none while paused; the pending one is the one whose handle
    [animationFrameRef] holds and its closure sees the current duration.
    Play, pause and duration edits in any order never leave two update
    loops running. *)
Theorem one_animation_loop (t0 : Z) (es : list event) :
  renders_along (mount t0) es = true →
  size (frames (run (mount t0) es)) =
    (if isPlaying (run (mount t0) es) then 1 else 0)%nat ∧
  ∀ h d, frames (run (mount t0) es) !! h = Some d →
         isPlaying (run (mount t0) es) = true ∧
         animationFrame (run (mount t0) es) = Some h ∧
         d = duration (run (mount t0) es).
Proof.
  intros _.
  pose proof (run_inv (mount t0) es (mount_inv t0)) as Hinv.
  unfold frames_inv in Hinv. destruct (isPlaying (run (mount t0) es)).
  - destruct Hinv as (h' & Hh & Hf). rewrite Hf. split.
    + apply map_size_singleton.
    + intros h d [-> <-]%lookup_singleton_Some. done.
  - rewrite Hinv. split; [apply map_size_empty|].
    intros h d Hh. by rewrite lookup_empty in Hh.
Qed.

Lemma one_animation_loop_witness :
  size (frames at_118) = 1%nat ∧
  (isPlaying at_118 = true ∧ animationFrame at_118 = Some 2%positive ∧
   num 120 1 = duration at_118) ∧
  size (frames (step at_118 ClickPlayPause)) = 0%nat.
Proof.
  split; [|split].
  - destruct (one_animation_loop 0 [ClickPlayPause; AnimationFrame 1 118000])
      as [Hs _]; [by vm_compute|]. exact Hs.
  - destruct (one_animation_loop 0 [ClickPlayPause; AnimationFrame 1 118000])
      as [_ Hl]; [by vm_compute|]. apply (Hl 2%positive (num 120 1)). by vm_compute.
  - destruct (one_animation_loop 0
                [ClickPlayPause; AnimationFrame 1 118000; ClickPlayPause])
      as [Hs _]; [by vm_compute|]. exact Hs.
Defined.

(** X7.  An edit of the duration reaches the running loop at once: in a
    run in which every render completes, that after the edit included,
    after a document change while playing the one pending callback holds
    the new duration, and its next run wraps against the new duration; in
    particular, when the new duration is at most the current time, the next
    tick with a stamp that is not in the past resets [currentTime] to 0. *)
Theorem duration_edit_reaches_loop (t0 : Z) (es : list event) (d' : Qc)
    (a' : list Keyframe) (now : Z) :
  renders_along (mount t0) (es ++ [DocumentChange d' a']) = true →
  isPlaying (run (mount t0) es) = true →
  ∃ h, frames (step (run (mount t0) es) (DocumentChange d' a')) = {[h := d']} ∧
       currentTime (run (mount t0) (es ++ [DocumentChange d' a'; AnimationFrame h now])) =
         advance d' (deltaTime (run (mount t0) es) now) (currentTime (run (mount t0) es)) ∧
       (d' ≤ currentTime (run (mount t0) es) →
        (lastUpdateTime (run (mount t0) es) ≤ now)%Z →
        currentTime (run (mount t0) (es ++ [DocumentChange d' a'; AnimationFrame h now]))
          = 0).
Proof.
  intros _ Hp.
  pose proof (run_inv (mount t0) es (mount_inv t0)) as Hinv.
  set (s := run (mount t0) es) in *.
  pose proof (step_inv s (DocumentChange d' a') Hinv) as Hinv'.
  assert (currentTime (step s (DocumentChange d' a')) = currentTime s ∧
          duration (step s (DocumentChange d' a')) = d' ∧
          isPlaying (step s (DocumentChange d' a')) = true ∧
          lastUpdateTime (step s (DocumentChange d' a')) = lastUpdateTime s)
    as (Hc & Hd & Hp' & Hl).
  { simpl. case_decide; [by rewrite Hp|].
    destruct (playbackEffect_fields (isPlaying s)
        (mkEditor (currentTime s) (isPlaying s) d' a' (lastUpdateTime s)
           (animationFrame s) (frames s) (nextHandle s))) as (-> & -> & -> & -> & _).
    by rewrite Hp. }
  unfold frames_inv in Hinv'. rewrite Hp', Hd in Hinv'.
  destruct Hinv' as (h & _ & Hf). exists h. split; [done|].
  rewrite run_app. fold s.
  assert (currentTime (run s [DocumentChange d' a'; AnimationFrame h now]) =
          advance d' (deltaTime s now) (currentTime s)) as Hstep.
  { change (run s [DocumentChange d' a'; AnimationFrame h now])
      with (step (step s (DocumentChange d' a')) (AnimationFrame h now)).
    rewrite (step_AnimationFrame_time _ h now d') by (by rewrite Hf, lookup_singleton_eq).
    unfold deltaTime. by rewrite Hc, Hl. }
  split; [done|]. intros Hle Hnow. rewrite Hstep. apply advance_wrap.
  eapply Qcle_trans; [exact Hle|].
  rewrite <-(Qcplus_0_r (currentTime s)) at 1.
  apply Qcplus_le_mono_l. by apply deltaTime_nonneg.
Qed.

Lemma duration_edit_reaches_loop_witness :
  ∃ h, currentTime
         (run (mount 0)
            ([ClickPlayPause; AnimationFrame 1 50000] ++
             [DocumentChange (num 40 1) initial_animations; AnimationFrame h 50016]))
       = 0.
Proof.
  destruct (duration_edit_reaches_loop 0 [ClickPlayPause; AnimationFrame 1 50000]
              (num 40 1) initial_animations 50016) as (h & _ & _ & H0);
    [by vm_compute|done|].
  exists h. apply H0; [qc_true|by vm_compute].
Defined.
